(** * Toasa/regexp: tokenizer, Thompson construction and NFA simulation

    A shallow embedding of the Go packages [token] (the tokenizer) and [nfa]
    (states, automata, the generator and the simulator), followed by the
    properties proved about them.

    Conventions of the embedding.
    - A Go [rune] (int32) and a Go [int] are integers of [Z].  Runes are only
      compared and copied, so no arithmetic on them is modelled; the one [int]
      that is incremented, [Generator.StateCount], wraps around as a 64-bit
      two's complement integer ([int_wrap]).
    - A Go [string] is a [string], a sequence of bytes; [for _, c := range s]
      visits the code points of [range_runes s], the UTF-8 decoding that the
      language prescribes (U+FFFD for each byte that starts no valid
      encoding).
    - A [*State] is [nil] or an address in a store of states ([heap]); state
      records are mutated through the store, so aliasing between fragments is
      kept.
    - A slice is the list of its elements.  Every slice that the generator
      appends to belongs to one fragment, which is consumed once, and the
      simulator appends to slices of its own only, so no two live slices
      share the cells that an [append] writes.
    - A run-time panic (nil dereference) is the result [Panic]; [os.Exit] is
      the result [Exit]. *)

From Stdlib Require Import ZArith Ascii String.
From stdpp Require Import base option list gmap strings pretty.

Local Open Scope Z_scope.

(** Code points. *)
Definition rune := Z.

(** The code point of an ASCII character literal. *)
Definition ch (c : ascii) : rune := Z.of_N (N_of_ascii c).

(** U+FFFD, what a range over a string yields for a byte that does not start
    a valid UTF-8 encoding. *)
Definition RuneError : rune := 65533.

(** A continuation byte of UTF-8, 0x80 to 0xBF. *)
Definition continuation (b : Z) : bool := (128 <=? b) && (b <=? 191).

(** The values the second byte may take after the leading byte [b0] of a
    three- or four-byte encoding (overlong forms, surrogates and values
    above U+10FFFF are not valid). *)
Definition second_byte (b0 b1 : Z) : bool :=
  if b0 =? 224 then (160 <=? b1) && (b1 <=? 191)
  else if b0 =? 237 then (128 <=? b1) && (b1 <=? 159)
  else if b0 =? 240 then (144 <=? b1) && (b1 <=? 191)
  else if b0 =? 244 then (128 <=? b1) && (b1 <=? 143)
  else continuation b1.

(** The code points that [range] yields over the bytes of a string: one per
    valid encoding, and [RuneError] for a byte that starts none, after which
    the decoding resumes at the next byte. *)
Fixpoint decode_runes (bs : list Z) : list rune :=
  match bs with
  | [] => []
  | b0 :: t0 =>
      let invalid := RuneError :: decode_runes t0 in
      if b0 <? 128 then b0 :: decode_runes t0
      else match t0 with
      | [] => invalid
      | b1 :: t1 =>
          if (194 <=? b0) && (b0 <=? 223) then
            if continuation b1
            then Z.lor (Z.shiftl (Z.land b0 31) 6) (Z.land b1 63) :: decode_runes t1
            else invalid
          else match t1 with
          | [] => invalid
          | b2 :: t2 =>
              if (224 <=? b0) && (b0 <=? 239) then
                if second_byte b0 b1 && continuation b2
                then Z.lor (Z.shiftl (Z.land b0 15) 12)
                       (Z.lor (Z.shiftl (Z.land b1 63) 6) (Z.land b2 63))
                     :: decode_runes t2
                else invalid
              else match t2 with
              | [] => invalid
              | b3 :: t3 =>
                  if (240 <=? b0) && (b0 <=? 244) then
                    if second_byte b0 b1 && continuation b2 && continuation b3
                    then Z.lor (Z.shiftl (Z.land b0 7) 18)
                           (Z.lor (Z.shiftl (Z.land b1 63) 12)
                              (Z.lor (Z.shiftl (Z.land b2 63) 6) (Z.land b3 63)))
                         :: decode_runes t3
                    else invalid
                  else invalid
              end
          end
      end
  end.

Definition range_runes (s : string) : list rune :=
  decode_runes (ch <$> list_ascii_of_string s).

(** ** Package token *)
Module token.

Inductive TokenType :=
  | TK_SYMBOL   (* 'a', 't', 'D',.. *)
  | TK_UNION    (* '|' *)
  | TK_CONCAT   (* the middle dot, usually omitted *)
  | TK_STAR     (* '*' *)
  | TK_EOF.     (* EOF *)

#[global] Instance TokenType_eq_dec : EqDecision TokenType.
Proof. solve_decision. Defined.

Record Token := mkToken { Type' : TokenType; Value : rune }.

#[global] Instance Token_eq_dec : EqDecision Token.
Proof. solve_decision. Defined.

Definition newToken (tt : TokenType) (value : rune) : Token :=
  {| Type' := tt; Value := value |}.

Definition isChar (c : rune) : bool :=
  ((ch "a" <=? c) && (c <=? ch "z")) || ((ch "A" <=? c) && (c <=? ch "Z")).

Definition lastTokenIsSymbol (tokens : list Token) : bool :=
  match last tokens with
  | None => false
  | Some t => bool_decide (Type' t = TK_SYMBOL)
  end.

(** U+30FB KATAKANA MIDDLE DOT, the value of a synthesized concatenation. *)
Definition middle_dot : rune := 12539.

(** What a call of [Tokenize] ends in: it returns its tokens, or it prints
    "unexpected input: c" and leaves the process with [os.Exit(status)]. *)
Inductive outcome :=
  | Return (tokens : list Token)
  | Exit (status : Z) (unexpected : rune).

(** The [for _, c := range regexp] loop, [tokens] being the slice built so
    far. *)
Fixpoint Tokenize_loop (tokens : list Token) (regexp : list rune) : outcome :=
  match regexp with
  | [] => Return (tokens ++ [newToken TK_EOF 0])
  | c :: rest =>
      if isChar c then
        let tokens :=
          if lastTokenIsSymbol tokens
          then tokens ++ [newToken TK_CONCAT middle_dot]
          else tokens in
        Tokenize_loop (tokens ++ [newToken TK_SYMBOL c]) rest
      else if c =? ch "|" then
        Tokenize_loop (tokens ++ [newToken TK_UNION c]) rest
      else if c =? ch "*" then
        Tokenize_loop (tokens ++ [newToken TK_STAR c]) rest
      else Exit 1 c
  end.

Definition Tokenize (regexp : string) : outcome :=
  Tokenize_loop [] (range_runes regexp).

(** The pattern alphabet of the specification: letters, '|' and '*'. *)
Definition in_alphabet (c : rune) : Prop :=
  (ch "a" <= c <= ch "z") ∨ (ch "A" <= c <= ch "Z") ∨ c = ch "|" ∨ c = ch "*".

End token.

(** ** Package parser (the AST consumed by the generator) *)
Module parser.

(** Modelled from the spec: package [parser] (the declaration of [Node] and of
    the [ND_*] node kinds) is not among the sources; only its use by the
    generator is.  The generator reads [node.Type], [node.Value], [node.Lhs]
    and [node.Rhs], and the specification lists the kinds Symbol, Union,
    Concat and Star.  [ND_OTHER] stands for every other value a [Type] field
    can hold; a child pointer is [None] when it is nil. *)
Inductive NodeType :=
  | ND_SYMBOL
  | ND_UNION
  | ND_CONCAT
  | ND_STAR
  | ND_OTHER (tag : Z).

#[local] Unset Elimination Schemes.
Inductive Node :=
  mkNode { Type' : NodeType; Value : rune; Lhs : option Node; Rhs : option Node }.
#[local] Set Elimination Schemes.

(** Induction on the tree below a node: the property holds of a node when it
    holds of the children that are present. *)
Fixpoint Node_tree_ind (P : Node → Prop)
    (step : ∀ ty value lhs rhs,
        from_option P True lhs → from_option P True rhs →
        P (mkNode ty value lhs rhs))
    (node : Node) : P node :=
  match node with
  | mkNode ty value lhs rhs =>
      step ty value lhs rhs
        (match lhs return from_option P True lhs with
         | Some n => Node_tree_ind P step n
         | None => I
         end)
        (match rhs return from_option P True rhs with
         | Some n => Node_tree_ind P step n
         | None => I
         end)
  end.

(** The four kinds the generator's switch has a case for. *)
Definition recognized (t : NodeType) : bool :=
  match t with ND_OTHER _ => false | _ => true end.

End parser.

(** ** Package nfa *)
Module nfa.
Import parser.

(** U+03B5 GREEK SMALL LETTER EPSILON, the label of a spontaneous move. *)
Definition epsilon : rune := 949.

(** A [*State] is nil ([None]) or the address of a state in the store. *)
Abbreviation loc := nat (only parsing).
Abbreviation ptr := (option nat) (only parsing).

Record State := mkState { ID : Z; Nexts : gmap Z (list ptr) }.

(** The store of allocated states, indexed by address. *)
Abbreviation heap := (list State) (only parsing).

(** NFA is non-deterministic finite automaton *)
Record NFA := mkNFA {
  States : list ptr;
  StartState : ptr;
  AcceptStates : list ptr
}.

(** *** Results and the state-and-panic monad *)

Inductive result (A : Type) :=
  | Ok (a : A)
  | Panic.
Arguments Ok {A} a.
Arguments Panic {A}.

#[global] Instance result_ret : MRet result := λ A, Ok.
#[global] Instance result_bind : MBind result := λ A B f m,
  match m with Ok a => f a | Panic => Panic end.

(** A computation over a mutable state [S] that may panic; the state reached
    when it panics is kept (what was printed stays printed). *)
Definition ST (S A : Type) : Type := S → result A * S.

#[global] Instance ST_ret {S} : MRet (ST S) := λ A a s, (Ok a, s).
#[global] Instance ST_bind {S} : MBind (ST S) := λ A B f m s,
  match m s with
  | (Ok a, s') => f a s'
  | (Panic, s') => (Panic, s')
  end.

Definition lift {S A} (r : result A) : ST S A := λ s, (r, s).

(** [p.ID], [p.Nexts]: reading through a [*State]. *)
Definition deref (h : heap) (p : ptr) : result State :=
  match p with
  | Some l => match h !! l with Some s => Ok s | None => Panic end
  | None => Panic
  end.

Definition newNFA (states : list ptr) (start : ptr) (accepts : list ptr) : NFA :=
  {| States := states; StartState := start; AcceptStates := accepts |}.

(** *** The simulator *)

Fixpoint removeDuplicate_loop (h : heap) (dup_map : gmap Z bool)
    (newStates states : list ptr) : result (list ptr) :=
  match states with
  | [] => Ok newStates
  | state :: rest =>
      s ← deref h state;
      match dup_map !! ID s with
      | Some _ => removeDuplicate_loop h dup_map newStates rest
      | None =>
          removeDuplicate_loop h (<[ID s := true]> dup_map) (newStates ++ [state]) rest
      end
  end.

Definition removeDuplicate (h : heap) (states : list ptr) : result (list ptr) :=
  removeDuplicate_loop h ∅ [] states.

Fixpoint contain (h : heap) (state : ptr) (states : list ptr) : result bool :=
  match states with
  | [] => Ok false
  | s :: rest =>
      s' ← deref h s;
      st ← deref h state;
      if ID s' =? ID st then Ok true else contain h state rest
  end.

Fixpoint adaptEpsilonTransition_loop (h : heap) (nextStates states : list ptr)
    : result (list ptr) :=
  match states with
  | [] => Ok nextStates
  | state :: rest =>
      s ← deref h state;
      let nextStates :=
        match Nexts s !! epsilon with
        | Some nexts => nextStates ++ nexts
        | None => nextStates
        end in
      adaptEpsilonTransition_loop h (nextStates ++ [state]) rest
  end.

Definition adaptEpsilonTransition (h : heap) (states : list ptr) : result (list ptr) :=
  nextStates ← adaptEpsilonTransition_loop h [] states;
  removeDuplicate h nextStates.

Fixpoint containStateOfEpsilonTransitive (h : heap) (states : list ptr) : result bool :=
  match states with
  | [] => Ok false
  | state :: rest =>
      s ← deref h state;
      match Nexts s !! epsilon with
      | Some _ => Ok true
      | None => containStateOfEpsilonTransitive h rest
      end
  end.

Fixpoint isInAcceptState (h : heap) (nfa : NFA) (states : list ptr) : result bool :=
  match states with
  | [] => Ok false
  | state :: rest =>
      b ← contain h state (AcceptStates nfa);
      if b : bool then Ok true else isInAcceptState h nfa rest
  end.

(** The inner loop of [Accept]: the destinations on [c] of the current
    states. *)
Fixpoint Accept_move (h : heap) (c : rune) (nextStates curStates : list ptr)
    : result (list ptr) :=
  match curStates with
  | [] => Ok nextStates
  | state :: rest =>
      s ← deref h state;
      match Nexts s !! c with
      | Some next => Accept_move h c (nextStates ++ next) rest
      | None => Accept_move h c nextStates rest
      end
  end.

(** The outer loop of [Accept], over the characters of the subject. *)
Fixpoint Accept_loop (h : heap) (curStates : list ptr) (str : list rune)
    : result (list ptr) :=
  match str with
  | [] => Ok curStates
  | c :: rest =>
      (* adapt ε transition before each symbol is read. *)
      curStates ← adaptEpsilonTransition h curStates;
      nextStates ← Accept_move h c [] curStates;
      curStates ← removeDuplicate h nextStates;
      (* adapt ε transition after each symbol is read. *)
      curStates ← adaptEpsilonTransition h curStates;
      Accept_loop h curStates rest
  end.

(** check that nfa accepts the string or not. *)
Definition Accept (h : heap) (nfa : NFA) (str : string) : result bool :=
  curStates ← adaptEpsilonTransition h [StartState nfa];
  (* the case of empty string *)
  if (String.length str =? 0)%nat then isInAcceptState h nfa curStates
  else
    curStates ← Accept_loop h curStates (range_runes str);
    isInAcceptState h nfa curStates.

(** *** The generator *)

(** Go's [int] on a 64-bit target: two's complement wrap-around. *)
Definition int_wrap (z : Z) : Z := (z + 2 ^ 63) `mod` 2 ^ 64 - 2 ^ 63.

(** NFA generator *)
Record Generator := mkGenerator { StateCount : Z }.

Definition newGenerator : Generator := {| StateCount := 0 |}.

(** Generator methods run over the generator and the store of states. *)
Abbreviation M := (ST (Generator * list State)) (only parsing).

Definition newState : M ptr := λ '(g, h),
  let id := StateCount g in
  (Ok (Some (length h)),
   ({| StateCount := int_wrap (StateCount g + 1) |},
    h ++ [{| ID := id; Nexts := ∅ |}])).

(** [p.Nexts[k]] as an expression: the nil slice when [k] is absent. *)
Definition getNexts (p : ptr) (k : rune) : M (list ptr) := λ '(g, h),
  (s ← deref h p; mret (default [] (Nexts s !! k)), (g, h)).

(** [p.Nexts[k] = v]. *)
Definition setNexts (p : ptr) (k : rune) (v : list ptr) : M unit := λ '(g, h),
  match p with
  | Some l =>
      match h !! l with
      | Some s =>
          (Ok (), (g, <[l := {| ID := ID s; Nexts := <[k := v]> (Nexts s) |}]> h))
      | None => (Panic, (g, h))
      end
  | None => (Panic, (g, h))
  end.

(** Reading a field through a [*NFA]. *)
Definition derefNFA {S} (p : option NFA) : ST S NFA :=
  lift (match p with Some a => Ok a | None => Panic end).

Definition genSymbolNFA (symbol : rune) : M NFA :=
  src ← newState;
  dst ← newState;
  tmp ← getNexts src symbol;
  let tmp := tmp ++ [dst] in
  _ ← setNexts src symbol tmp;
  let states := [src; dst] in
  let accepts := [dst] in
  mret (newNFA states src accepts).

(** The loop shared by [genConcateNFA] and [genStarNFA]: every state of
    [accepts] gets one more ε-transition, to [target]. *)
Fixpoint appendEpsilon (target : ptr) (accepts : list ptr) : M unit :=
  match accepts with
  | [] => mret ()
  | state :: rest =>
      tmp ← getNexts state epsilon;
      let tmp := tmp ++ [target] in
      _ ← setNexts state epsilon tmp;
      appendEpsilon target rest
  end.

Definition genUnionNFA (lhs rhs : option NFA) : M NFA :=
  (* Create new start state, and the new start state has
     ε-transitions to the old start state of lhs and rhs. *)
  start ← newState;
  l ← derefNFA lhs;
  r ← derefNFA rhs;
  _ ← setNexts start epsilon [StartState l; StartState r];
  let states := [start] in
  let states := states ++ States l in
  let states := states ++ States r in
  let accepts := AcceptStates l ++ AcceptStates r in
  mret (newNFA states start accepts).

Definition genConcateNFA (lhs rhs : option NFA) : M NFA :=
  (* Let the accept states of lhs have ε-transitions to the
     start state of rhs. *)
  l ← derefNFA lhs;
  r ← derefNFA rhs;
  _ ← appendEpsilon (StartState r) (AcceptStates l);
  let start := StartState l in
  let accepts := AcceptStates r in
  let states := States l ++ States r in
  mret (newNFA states start accepts).

Definition genStarNFA (old : option NFA) : M NFA :=
  start ← newState;
  o ← derefNFA old;
  _ ← setNexts start epsilon [StartState o];
  (* Let the accept states of old have ε-transitions to the
     old's start state. *)
  _ ← appendEpsilon (StartState o) (AcceptStates o);
  let accepts := AcceptStates o in
  (* new start state is also accept state *)
  let accepts := accepts ++ [start] in
  let states := States o ++ [start] in
  mret (newNFA states start accepts).

(** [gen] on a non-nil node; a nil child makes the recursive call panic on
    [node.Type]. The result is [None] when [gen] returns nil. *)
Fixpoint gen (node : Node) : M (option NFA) :=
  match node with
  | mkNode ty value lhs rhs =>
      match ty with
      | ND_SYMBOL => a ← genSymbolNFA value; mret (Some a)
      | ND_UNION =>
          l ← match lhs with Some n => gen n | None => lift Panic end;
          r ← match rhs with Some n => gen n | None => lift Panic end;
          a ← genUnionNFA l r; mret (Some a)
      | ND_CONCAT =>
          l ← match lhs with Some n => gen n | None => lift Panic end;
          r ← match rhs with Some n => gen n | None => lift Panic end;
          a ← genConcateNFA l r; mret (Some a)
      | ND_STAR =>
          old ← match lhs with Some n => gen n | None => lift Panic end;
          a ← genStarNFA old; mret (Some a)
      | ND_OTHER _ => mret None
      end
  end.

(** [CreateNFA]: a new generator, and no state allocated yet. *)
Definition CreateNFA (node : Node) : result (option NFA) * (Generator * heap) :=
  gen node (newGenerator, []).

(** *** Diagram output *)

(** The verbs of Go's [fmt.Printf] that [DumpDOT] uses, after the library's
    documentation: [fmt_d] is %d on an [int] (decimal, a minus sign for
    negatives); [fmt_c] is %c on a [rune], the UTF-8 encoding of the code
    point, U+FFFD for a value that is not a code point. *)
Definition fmt_d (n : Z) : string := pretty n.

Definition utf8_bytes (r : rune) : list Z :=
  if (0 <=? r) && (r <=? 127) then [r]
  else if (128 <=? r) && (r <=? 2047) then
    [Z.lor 192 (Z.shiftr r 6); Z.lor 128 (Z.land r 63)]
  else if (r <? 0) || (1114111 <? r) || ((55296 <=? r) && (r <=? 57343)) then
    [239; 191; 189]
  else if r <=? 65535 then
    [Z.lor 224 (Z.shiftr r 12); Z.lor 128 (Z.land (Z.shiftr r 6) 63);
     Z.lor 128 (Z.land r 63)]
  else
    [Z.lor 240 (Z.shiftr r 18); Z.lor 128 (Z.land (Z.shiftr r 12) 63);
     Z.lor 128 (Z.land (Z.shiftr r 6) 63); Z.lor 128 (Z.land r 63)].

Definition fmt_c (r : rune) : string :=
  string_of_list_ascii ((λ b, ascii_of_N (Z.to_N b)) <$> utf8_bytes r).

(** The line feed that ends every line of the output. *)
Definition LF : string := String (ascii_of_nat 10) EmptyString.

(** [fmt.Print] and [fmt.Printf], once the text is formatted: printing
    appends to the standard output written so far. *)
Abbreviation IO := (ST string) (only parsing).

Definition fmt_Print (s : string) : IO unit := λ out, (Ok (), out +:+ s).

(** The order in which [range] visits the entries of a map is not fixed by
    the language and may change from one loop to the next.  [order i m] is
    the order chosen for the map [m] of the [i]-th state of [nfa.States];
    it is a possible choice of the run time when it enumerates the entries
    of [m], each once ([range_order]). *)
Definition range_order (order : nat → gmap Z (list ptr) → list (Z * list ptr)) : Prop :=
  ∀ i m, order i m ≡ₚ map_to_list m.

Fixpoint DumpDOT_accepts (h : heap) (accepts : list ptr) : IO unit :=
  match accepts with
  | [] => mret ()
  | s :: rest =>
      s' ← lift (deref h s);
      _ ← fmt_Print ("    q" +:+ fmt_d (ID s') +:+ " [shape = doublecircle];" +:+ LF);
      DumpDOT_accepts h rest
  end.

Fixpoint DumpDOT_dsts (h : heap) (src : ptr) (symbol : rune) (dstStates : list ptr)
    : IO unit :=
  match dstStates with
  | [] => mret ()
  | dst :: rest =>
      s ← lift (deref h src);
      d ← lift (deref h dst);
      _ ← fmt_Print ("    q" +:+ fmt_d (ID s) +:+ " -> q" +:+ fmt_d (ID d)
                 +:+ " [label=" +:+ fmt_c symbol +:+ "];" +:+ LF);
      DumpDOT_dsts h src symbol rest
  end.

Fixpoint DumpDOT_symbols (h : heap) (src : ptr) (entries : list (Z * list ptr))
    : IO unit :=
  match entries with
  | [] => mret ()
  | (symbol, dstStates) :: rest =>
      _ ← DumpDOT_dsts h src symbol dstStates;
      DumpDOT_symbols h src rest
  end.

Fixpoint DumpDOT_states (h : heap)
    (order : nat → gmap Z (list ptr) → list (Z * list ptr))
    (i : nat) (states : list ptr) : IO unit :=
  match states with
  | [] => mret ()
  | src :: rest =>
      s ← lift (deref h src);
      _ ← DumpDOT_symbols h src (order i (Nexts s));
      DumpDOT_states h order (S i) rest
  end.

(** DumpDOT outputs a DOT. DOT is a graph description language.
    The start state forms square box and the accept states form double
    circle. *)
Definition DumpDOT (h : heap)
    (order : nat → gmap Z (list ptr) → list (Z * list ptr)) (nfa : NFA) : IO unit :=
  _ ← fmt_Print ("digraph G {" +:+ LF);
  start ← lift (deref h (StartState nfa));
  _ ← fmt_Print ("    q" +:+ fmt_d (ID start) +:+ " [shape = box];" +:+ LF);
  _ ← DumpDOT_accepts h (AcceptStates nfa);
  _ ← DumpDOT_states h order 0 (States nfa);
  fmt_Print ("}" +:+ LF).

End nfa.

(** ** Specification-level notions *)
Module spec.
Import parser nfa.

(** An AST as the specification describes it: a tree over the four kinds
    whose Union and Concat nodes have two children and whose Star nodes have
    one (fields the generator does not read are left free). *)
Fixpoint well_formed (node : Node) : bool :=
  match node with
  | mkNode ty _ lhs rhs =>
      match ty with
      | ND_SYMBOL => true
      | ND_UNION | ND_CONCAT =>
          match lhs, rhs with
          | Some l, Some r => well_formed l && well_formed r
          | _, _ => false
          end
      | ND_STAR => match lhs with Some l => well_formed l | None => false end
      | ND_OTHER _ => false
      end
  end.

(** The nodes of kind [k] among those the generator visits. *)
Fixpoint count (k : NodeType) (node : Node) : nat :=
  match node with
  | mkNode ty _ lhs rhs =>
      let here := match ty, k with
                  | ND_SYMBOL, ND_SYMBOL | ND_UNION, ND_UNION
                  | ND_CONCAT, ND_CONCAT | ND_STAR, ND_STAR => 1%nat
                  | _, _ => 0%nat
                  end in
      let below (child : option Node) :=
        match child with Some n => count k n | None => 0%nat end in
      match ty with
      | ND_SYMBOL | ND_OTHER _ => here
      | ND_UNION | ND_CONCAT => (here + below lhs + below rhs)%nat
      | ND_STAR => (here + below lhs)%nat
      end
  end.

(** 2k + u + s: the states the specification expects for an AST. *)
Definition expected_states (node : Node) : nat :=
  (2 * count ND_SYMBOL node + count ND_UNION node + count ND_STAR node)%nat.

(** The largest value of a 64-bit [int]. *)
Definition max_int : Z := 2 ^ 63 - 1.

(** A pointer that can be dereferenced in [h]. *)
Definition allocated (h : heap) (p : ptr) : Prop :=
  ∃ l s, p = Some l ∧ h !! l = Some s.

(** The ID read through a pointer (0 for a pointer that cannot be read). *)
Definition id_of (h : heap) (p : ptr) : Z :=
  match deref h p with Ok s => ID s | Panic => 0 end.

(** The direct ε-successors of a state, in the order of its [Nexts] entry. *)
Definition epsilon_successors (h : heap) (p : ptr) : list ptr :=
  match deref h p with
  | Ok s => default [] (Nexts s !! epsilon)
  | Panic => []
  end.

(** A token other than EndOfInput. *)
Definition not_EOF (t : token.Token) : Prop := token.Type' t ≠ token.TK_EOF.

(** What one pass over [states] collects: for each state in turn its direct
    ε-successors, then the state itself. *)
Definition one_pass (h : heap) (states : list ptr) : list ptr :=
  flat_map (λ p, epsilon_successors h p ++ [p]) states.

(** Removing duplicates under a key, keeping first occurrences: an element
    stays exactly when no earlier element has its key. *)
Fixpoint keep_first {A : Type} (key : A → Z) (l : list A) : list A :=
  match l with
  | [] => []
  | x :: l' => x :: filter (λ y, key y ≠ key x) (keep_first key l')
  end.

(** The value of a counter that started at [c] after [i] increments of a
    64-bit [int]. *)
Definition count_from (c : Z) (i : nat) : Z :=
  Nat.iter i (λ z, int_wrap (z + 1)) c.

(** A state whose only transitions, if any, are ε-transitions. *)
Definition epsilon_only (s : State) : Prop := dom (Nexts s) ⊆ {[epsilon]}.

(** A state with transitions on at most one symbol. *)
Definition one_symbol (s : State) : Prop := (size (Nexts s) ≤ 1)%nat.

(** The invariant of the data model: the start state and every accept state
    belong to the states of the automaton. *)
Definition nfa_invariant (a : NFA) : Prop :=
  StartState a ∈ States a ∧ AcceptStates a ⊆ States a.

(** Every state of the automaton has transitions on at most one symbol. *)
Definition single_symbol (h : heap) (a : NFA) : Prop :=
  ∀ p s, p ∈ States a → deref h p = Ok s → one_symbol s.

(** What a run of the generator that started from the generator [g] and the
    store [h] and allocated [n] states did to the counter and to the store,
    [g'] and [h'] being what it left. *)
Record grown (g : Generator) (h : heap) (n : nat)
    (g' : Generator) (h' : heap) : Prop := {
  (* the counter was incremented once per state *)
  grown_count : StateCount g' = count_from (StateCount g) n;
  (* the store grew by the new states *)
  grown_length : length h' = (length h + n)%nat;
  (* states allocated before the run are untouched *)
  grown_frame : ∀ l, (l < length h)%nat → h' !! l = h !! l;
  (* the i-th new state has the i-th ID and transitions on one symbol at most *)
  grown_new : ∀ i, (i < n)%nat →
    ∃ s, h' !! (length h + i)%nat = Some s
         ∧ ID s = count_from (StateCount g) i ∧ one_symbol s
}.

(** The fragment [a] returned by such a run. *)
Record fragment (h : heap) (n : nat) (a : NFA) (h' : heap) : Prop := {
  (* the fragment's states are the new states, each once *)
  fragment_states : States a ≡ₚ Some <$> seq (length h) n;
  fragment_invariant : nfa_invariant a;
  (* accept states carry ε-transitions only *)
  fragment_accepts : ∀ p, p ∈ AcceptStates a →
    ∃ l s, p = Some l ∧ h' !! l = Some s ∧ epsilon_only s
}.

(** The store [h'] differs from [h] at most at the states of [touched], and
    there only by ε-transitions; IDs are kept. *)
Definition relinked (touched : list ptr) (h h' : heap) : Prop :=
  length h' = length h
  ∧ ∀ l s', h' !! l = Some s' →
      ∃ s, h !! l = Some s ∧ ID s' = ID s
           ∧ (s' = s ∨ (Some l ∈ touched ∧ epsilon_only s')).

(** Two runs of one pass of ε-moves from the start state of the automaton
    compiled from an AST: the IDs after [n] passes. *)
Definition passes_from_start (node : Node) (n : nat) : result (list Z) :=
  match CreateNFA node with
  | (Ok (Some a), (_, h)) =>
      r ← Nat.iter n (λ r, r ≫= adaptEpsilonTransition h) (Ok [StartState a]);
      mret (id_of h <$> r)
  | _ => Panic
  end.

(** A store with a chain of two ε-moves, q0 -> q1 -> q2. *)
Definition chain : heap :=
  [ {| ID := 0; Nexts := {[epsilon := [Some 1%nat]]} |};
    {| ID := 1; Nexts := {[epsilon := [Some 2%nat]]} |};
    {| ID := 2; Nexts := ∅ |} ].

(** Two orders in which the entries of a map can be enumerated. *)
Definition forward (i : nat) (m : gmap Z (list ptr)) : list (Z * list ptr) :=
  map_to_list m.
Definition backward (i : nat) (m : gmap Z (list ptr)) : list (Z * list ptr) :=
  reverse (map_to_list m).

(** An automaton whose state q0 moves to q1 on a and on b. *)
Definition fork : heap :=
  [ {| ID := 0; Nexts := {[ch "a" := [Some 1%nat]; ch "b" := [Some 1%nat]]} |};
    {| ID := 1; Nexts := ∅ |} ].
Definition fork_nfa : NFA :=
  {| States := [Some 0%nat; Some 1%nat]; StartState := Some 0%nat;
     AcceptStates := [Some 1%nat] |}.

(** The automaton over the store [chain]. *)
Definition chain_nfa : NFA :=
  {| States := [Some 0%nat; Some 1%nat; Some 2%nat]; StartState := Some 0%nat;
     AcceptStates := [Some 2%nat] |}.

(** ASTs of the concrete scenarios. *)
Definition Symbol (c : ascii) : Node := mkNode ND_SYMBOL (ch c) None None.
Definition Union (l r : Node) : Node := mkNode ND_UNION (ch "|") (Some l) (Some r).
Definition Concat (l r : Node) : Node := mkNode ND_CONCAT token.middle_dot (Some l) (Some r).
Definition Star (l : Node) : Node := mkNode ND_STAR (ch "*") (Some l) None.

(** Compile an AST and run the automaton on a subject string. *)
Definition compile_and_accept (node : Node) (str : string) : result bool :=
  match CreateNFA node with
  | (Ok (Some a), (_, h)) => Accept h a str
  | _ => Panic
  end.

End spec.

(** ** Further notions *)
Module notions.
Import parser nfa spec.
Import token.


(** Whether a token is of kind [k]. *)
Definition is_kind (k : TokenType) (t : Token) : bool :=
  bool_decide (token.Type' t = k).

(** Two neighbours in a token sequence: not two symbols, and a Concat only
    between two symbols. *)
Definition neighbours (a b : Token) : bool :=
  negb (is_kind TK_SYMBOL a && is_kind TK_SYMBOL b)
  && implb (is_kind TK_CONCAT b) (is_kind TK_SYMBOL a)
  && implb (is_kind TK_CONCAT a) (is_kind TK_SYMBOL b).

(** Every two adjacent tokens of the sequence are [neighbours]. *)
Fixpoint spaced (ts : list Token) : bool :=
  match ts with
  | a :: rest =>
      match rest with
      | b :: _ => neighbours a b && spaced rest
      | [] => true
      end
  | [] => true
  end.

(** The direct successors of a state on the symbol [c], in the order of its
    [Nexts] entry. *)
Definition successors_on (h : list State) (c : rune) (p : option nat)
    : list (option nat) :=
  match deref h p with
  | Ok s => default [] (Nexts s !! c)
  | Panic => []
  end.

(** Every destination of every transition in the store is a state of the
    store. *)
Definition closed (h : list State) : Prop :=
  ∀ l s k ps p, h !! l = Some s → Nexts s !! k = Some ps → p ∈ ps → allocated h p.

(** What makes the parent of a child panic: the child is nil, or [gen] on it
    panics or returns nil. *)
Definition bad (child : option Node) (st : Generator * list State) : Prop :=
  match child with
  | None => True
  | Some n => (∃ st', gen n st = (Panic, st')) ∨ gen n st = (Ok None, st)
  end.

(** The store and the automaton that [CreateNFA] builds from a Symbol node
    of value [c]: q0 -c-> q1. *)
Definition symbol_store (c : rune) : list State :=
  [ {| ID := 0; Nexts := {[c := [Some 1%nat]]} |};
    {| ID := 1; Nexts := ∅ |} ].
Definition symbol_nfa : NFA :=
  newNFA [Some 0%nat; Some 1%nat] (Some 0%nat) [Some 1%nat].

(** Those of Star(Symbol c): q0 -c-> q1, and ε-moves from q1 and from the
    start state q2 to q0. *)
Definition star_store (c : rune) : list State :=
  [ {| ID := 0; Nexts := {[c := [Some 1%nat]]} |};
    {| ID := 1; Nexts := {[epsilon := [Some 0%nat]]} |};
    {| ID := 2; Nexts := {[epsilon := [Some 0%nat]]} |} ].
Definition star_nfa : NFA :=
  newNFA [Some 0%nat; Some 1%nat; Some 2%nat] (Some 2%nat)
         [Some 1%nat; Some 2%nat].

(** Those of Concat(Symbol c1, Symbol c2): q0 -c1-> q1 -ε-> q2 -c2-> q3. *)
Definition concat_store (c1 c2 : rune) : list State :=
  [ {| ID := 0; Nexts := {[c1 := [Some 1%nat]]} |};
    {| ID := 1; Nexts := {[epsilon := [Some 2%nat]]} |};
    {| ID := 2; Nexts := {[c2 := [Some 3%nat]]} |};
    {| ID := 3; Nexts := ∅ |} ].
Definition concat_nfa : NFA :=
  newNFA [Some 0%nat; Some 1%nat; Some 2%nat; Some 3%nat] (Some 0%nat)
         [Some 3%nat].

(** Those of Union(Symbol c1, Symbol c2): q0 -c1-> q1, q2 -c2-> q3, and
    ε-moves from the start state q4 to q0 and q2. *)
Definition union_store (c1 c2 : rune) : list State :=
  [ {| ID := 0; Nexts := {[c1 := [Some 1%nat]]} |};
    {| ID := 1; Nexts := ∅ |};
    {| ID := 2; Nexts := {[c2 := [Some 3%nat]]} |};
    {| ID := 3; Nexts := ∅ |};
    {| ID := 4; Nexts := {[epsilon := [Some 0%nat; Some 2%nat]]} |} ].
Definition union_nfa : NFA :=
  newNFA [Some 4%nat; Some 0%nat; Some 1%nat; Some 2%nat; Some 3%nat]
         (Some 4%nat) [Some 1%nat; Some 3%nat].

End notions.

(** * Properties *)

Import token parser nfa spec.

(** ** The tokenizer *)
Section tokenizer.

Lemma isChar_spec c :
  isChar c = true ↔ (ch "a" <= c <= ch "z") ∨ (ch "A" <= c <= ch "Z").
Proof. unfold isChar. rewrite orb_true_iff, !andb_true_iff, !Z.leb_le. tauto. Qed.

Lemma in_alphabet_cases c :
  in_alphabet c ↔ isChar c = true ∨ c = ch "|" ∨ c = ch "*".
Proof. unfold in_alphabet. rewrite isChar_spec. tauto. Qed.

(** Membership of concrete characters in the alphabet. *)
Ltac alphabet :=
  repeat first
    [ apply Forall_nil_2
    | apply Forall_cons_2
    | progress (unfold in_alphabet, ch; simpl; lia) ].

(** The loop only appends tokens other than EndOfInput, then the single
    EndOfInput. *)
Lemma Tokenize_loop_alphabet regexp : ∀ tokens,
  Forall in_alphabet regexp → Forall not_EOF tokens →
  ∃ ts, Tokenize_loop tokens regexp = Return (ts ++ [newToken TK_EOF 0])
        ∧ Forall not_EOF ts.
Proof.
  induction regexp as [|c rest IH]; intros tokens Hal Htok; simpl.
  - by exists tokens.
  - apply Forall_cons in Hal as [Hc Hrest].
    apply in_alphabet_cases in Hc.
    destruct (isChar c) eqn:Hchar.
    + apply IH; [done|].
      apply Forall_app; split; [|by repeat constructor].
      destruct (lastTokenIsSymbol tokens); [|done].
      apply Forall_app; split; [done|by repeat constructor].
    + destruct Hc as [?|[->| ->]]; [done| |]; simpl;
        (apply IH; [done|]; apply Forall_app; split; [done|by repeat constructor]).
Qed.

(** On the first character outside the alphabet the loop exits with status
    1, whatever was tokenized before. *)
Lemma Tokenize_loop_exit pre : ∀ tokens c suf,
  Forall in_alphabet pre → ¬ in_alphabet c →
  Tokenize_loop tokens (pre ++ c :: suf) = Exit 1 c.
Proof.
  induction pre as [|a pre IH]; intros tokens c suf Hpre Hc; simpl.
  - rewrite in_alphabet_cases in Hc.
    destruct (isChar c); [tauto|].
    destruct (Z.eqb_spec c (ch "|")); [tauto|].
    destruct (Z.eqb_spec c (ch "*")); [tauto|done].
  - apply Forall_cons in Hpre as [Ha Hpre].
    apply in_alphabet_cases in Ha.
    destruct (isChar a); [by apply IH|].
    destruct Ha as [?|[->| ->]]; [done| |]; simpl; by apply IH.
Qed.

(** A pattern is in the alphabet throughout, or it has a first character
    that is not. *)
Lemma first_outside regexp :
  Forall in_alphabet regexp ∨
  ∃ pre c suf, regexp = pre ++ c :: suf ∧ Forall in_alphabet pre ∧ ¬ in_alphabet c.
Proof.
  induction regexp as [|c rest IH]; [by left|].
  assert (Hdec : in_alphabet c ∨ ¬ in_alphabet c).
  { rewrite in_alphabet_cases.
    destruct (isChar c); [by left; left|].
    destruct (decide (c = ch "|")); [by left; right; left|].
    destruct (decide (c = ch "*")); [by left; right; right|].
    right. by intros [?|[?|?]]. }
  destruct Hdec as [Hc|Hc].
  - destruct IH as [IH|(pre & d & suf & -> & Hpre & Hd)].
    + left. by constructor.
    + right. exists (c :: pre), d, suf. repeat split; [by constructor|done].
  - right. exists [], c, rest. by repeat split.
Qed.

(** C5: on a pattern over the alphabet {a-z, A-Z, |, *} Tokenize returns a
    sequence whose last element is an EndOfInput token and whose other
    elements are not; the empty pattern gives exactly [EndOfInput]; "ab"
    gives Symbol(a), Concat, Symbol(b), EndOfInput, the loop synthesizing a
    Concat token (of value U+30FB) whenever a letter follows a Symbol token;
    and "a|b" gives Symbol(a), Union, Symbol(b), EndOfInput. The expected
    tokens are written out field by field. *)
Theorem Tokenize_terminated_by_one_EOF :
  (∀ regexp : string, Forall in_alphabet (range_runes regexp) →
     ∃ ts, Tokenize regexp = Return (ts ++ [mkToken TK_EOF 0])
           ∧ Forall (λ t, token.Type' t ≠ TK_EOF) ts)
  ∧ Tokenize "" = Return [mkToken TK_EOF 0]
  ∧ Tokenize "ab"
    = Return [mkToken TK_SYMBOL 97; mkToken TK_CONCAT 12539;
              mkToken TK_SYMBOL 98; mkToken TK_EOF 0]
  ∧ (∀ tokens c1 c2 rest,
       (ch "a" <= c2 <= ch "z") ∨ (ch "A" <= c2 <= ch "Z") →
       Tokenize_loop (tokens ++ [mkToken TK_SYMBOL c1]) (c2 :: rest)
       = Tokenize_loop (tokens ++ [mkToken TK_SYMBOL c1;
                                   mkToken TK_CONCAT 12539;
                                   mkToken TK_SYMBOL c2]) rest)
  ∧ Tokenize "a|b"
    = Return [mkToken TK_SYMBOL 97; mkToken TK_UNION 124;
              mkToken TK_SYMBOL 98; mkToken TK_EOF 0].
Proof.
  split; [|repeat split].
  - intros regexp Hal.
    destruct (Tokenize_loop_alphabet (range_runes regexp) [] Hal)
      as (ts & Hrun & Hts); [done|].
    by exists ts.
  - intros tokens c1 c2 rest H2%isChar_spec. simpl. rewrite H2.
    unfold lastTokenIsSymbol. rewrite last_snoc. simpl.
    by rewrite <- !app_assoc.
Qed.

Lemma Tokenize_terminated_by_one_EOF_witness :
  Forall in_alphabet (range_runes "a*|bc") ∧
  ∃ ts, Tokenize "a*|bc" = Return (ts ++ [mkToken TK_EOF 0])
        ∧ Forall (λ t, token.Type' t ≠ TK_EOF) ts.
Proof.
  assert (Hal : Forall in_alphabet (range_runes "a*|bc")).
  { alphabet. }
  split; [exact Hal|].
  exact (proj1 Tokenize_terminated_by_one_EOF "a*|bc" Hal).
Defined.

(** C7: Tokenize returns a token sequence exactly when every character of
    the pattern is a letter, '|' or '*'; otherwise it stops at the first
    other character, reports it and exits with status 1, returning no
    tokens. *)
Theorem Tokenize_returns_iff_alphabet (regexp : string) :
  ((∃ tokens, Tokenize regexp = Return tokens)
   ↔ Forall in_alphabet (range_runes regexp))
  ∧ (∀ pre c suf, range_runes regexp = pre ++ c :: suf →
       Forall in_alphabet pre → ¬ in_alphabet c →
       Tokenize regexp = Exit 1 c).
Proof.
  unfold Tokenize. split.
  - split.
    + intros [tokens Hret].
      destruct (first_outside (range_runes regexp))
        as [|(pre & c & suf & Heq & Hpre & Hc)]; [done|].
      rewrite Heq in Hret. by rewrite Tokenize_loop_exit in Hret.
    + intros Hal.
      destruct (Tokenize_loop_alphabet (range_runes regexp) [] Hal)
        as (ts & Hts & _); [done|].
      by eexists.
  - intros pre c suf -> Hpre Hc. by apply Tokenize_loop_exit.
Qed.

Lemma Tokenize_returns_iff_alphabet_witness :
  Tokenize "a+b" = Exit 1 (ch "+")
  ∧ ∃ tokens, Tokenize "ab*" = Return tokens.
Proof.
  split.
  - apply (proj2 (Tokenize_returns_iff_alphabet "a+b") [ch "a"] (ch "+") [ch "b"]).
    + reflexivity.
    + alphabet.
    + alphabet.
  - apply (proj2 (proj1 (Tokenize_returns_iff_alphabet "ab*"))).
    alphabet.
Defined.

End tokenizer.

(** ** The simulator: one pass of ε-moves and removal of duplicates *)
Section simulator.

Context (h : list State).

Lemma deref_allocated p : allocated h p → ∃ s, deref h p = Ok s.
Proof. intros (l & s & -> & Hl). exists s. simpl. by rewrite Hl. Qed.

Lemma keep_first_subseteq {A} (key : A → Z) l : keep_first key l ⊆ l.
Proof.
  induction l as [|x l IH]; simpl; [done|].
  intros y [->|Hy%list_elem_of_filter]%elem_of_cons; [left|right].
  apply IH, Hy.
Qed.

Lemma keep_first_keys {A} (key : A → Z) l x :
  x ∈ l → key x ∈ key <$> keep_first key l.
Proof.
  induction l as [|y l IH]; simpl; [by intros ?%elem_of_nil|].
  intros [->|Hx]%elem_of_cons; [left|].
  destruct (decide (key x = key y)) as [->|Hne]; [left|right].
  apply list_elem_of_fmap in IH as (z & Hz & Hin); [|done].
  apply list_elem_of_fmap. exists z. split; [done|].
  apply list_elem_of_filter. split; [congruence|done].
Qed.

Lemma keep_first_NoDup {A} (key : A → Z) l : NoDup (key <$> keep_first key l).
Proof.
  induction l as [|x l IH]; simpl; [constructor|].
  constructor.
  - intros (y & Hy & [Hne _]%list_elem_of_filter)%list_elem_of_fmap. congruence.
  - revert IH. generalize (keep_first key l). intros k.
    induction k as [|z k IHk]; simpl; [done|].
    rewrite NoDup_cons. intros [Hz Hk].
    rewrite filter_cons. case_decide; simpl; [|by apply IHk].
    constructor; [|by apply IHk].
    intros (y & Hy & [_ Hin]%list_elem_of_filter)%list_elem_of_fmap.
    apply Hz, list_elem_of_fmap. by exists y.
Qed.

(** The loop of [removeDuplicate], started with the map [dup_map] and the
    slice [newStates], appends the first occurrences whose ID is not yet a
    key of the map. *)
Lemma removeDuplicate_loop_spec states : ∀ dup_map newStates,
  Forall (allocated h) states →
  removeDuplicate_loop h dup_map newStates states
  = Ok (newStates ++ filter (λ p, dup_map !! id_of h p = None)
                            (keep_first (id_of h) states)).
Proof.
  induction states as [|p states IH]; intros dup_map newStates Hall; simpl.
  - by rewrite app_nil_r.
  - apply Forall_cons in Hall as [Hp Hall].
    destruct (deref_allocated p Hp) as [s Hs].
    rewrite Hs. simpl.
    assert (Hid : id_of h p = ID s) by (unfold id_of; by rewrite Hs).
    rewrite filter_cons, Hid.
    destruct (dup_map !! ID s) as [b|] eqn:Hdup.
    + rewrite IH by done. case_decide; [done|]. f_equal. f_equal.
      rewrite list_filter_filter. apply list_filter_iff.
      intros q. split; [|tauto]. intros Hq. split; [done|]. congruence.
    + rewrite IH by done. rewrite decide_True by done.
      rewrite <- app_assoc. simpl. do 3 f_equal.
      rewrite list_filter_filter. apply list_filter_iff.
      intros q. rewrite lookup_insert_None. intuition congruence.
Qed.

Lemma removeDuplicate_spec states :
  Forall (allocated h) states →
  removeDuplicate h states = Ok (keep_first (id_of h) states).
Proof.
  intros Hall. unfold removeDuplicate.
  rewrite removeDuplicate_loop_spec by done. simpl. f_equal.
  induction (keep_first (id_of h) states) as [|q k IHk]; [done|].
  rewrite filter_cons_True by apply lookup_empty. by f_equal.
Qed.

Lemma adaptEpsilonTransition_loop_spec states : ∀ nextStates,
  Forall (allocated h) states →
  adaptEpsilonTransition_loop h nextStates states
  = Ok (nextStates ++ one_pass h states).
Proof.
  induction states as [|p states IH]; intros nextStates Hall; simpl.
  - by rewrite app_nil_r.
  - apply Forall_cons in Hall as [Hp Hall].
    destruct (deref_allocated p Hp) as [s Hs].
    unfold epsilon_successors. rewrite Hs. simpl.
    rewrite IH by done. f_equal.
    destruct (Nexts s !! epsilon); simpl; by rewrite <- !app_assoc.
Qed.

Lemma one_pass_elem states q :
  q ∈ one_pass h states ↔
  q ∈ states ∨ ∃ p, p ∈ states ∧ q ∈ epsilon_successors h p.
Proof.
  unfold one_pass. rewrite list_elem_of_In, in_flat_map. split.
  - intros (p & Hp%list_elem_of_In & Hq%list_elem_of_In).
    apply elem_of_app in Hq as [Hq|Hq%list_elem_of_singleton]; [right|left].
    + by exists p.
    + by subst.
  - intros [Hq|(p & Hp & Hq)].
    + exists q. rewrite <- !list_elem_of_In. split; [done|].
      apply elem_of_app. right. by apply list_elem_of_singleton.
    + exists p. rewrite <- !list_elem_of_In. split; [done|].
      apply elem_of_app. by left.
Qed.

(** C9: on a list of states that can be read, as can their direct
    ε-successors, adaptEpsilonTransition returns a list that contains, by ID,
    every input state; whose members are input states or direct
    ε-successors of input states; whose IDs are pairwise distinct; and that
    is the list collected by one pass with duplicates removed, first
    occurrences kept. *)
Theorem adaptEpsilonTransition_one_pass (states : list (option nat)) :
  Forall (allocated h) states →
  (∀ p, p ∈ states → Forall (allocated h) (epsilon_successors h p)) →
  ∃ r, adaptEpsilonTransition h states = Ok r
       ∧ (∀ p, p ∈ states → id_of h p ∈ id_of h <$> r)
       ∧ (∀ q, q ∈ r →
            q ∈ states ∨ ∃ p, p ∈ states ∧ q ∈ epsilon_successors h p)
       ∧ NoDup (id_of h <$> r)
       ∧ r = keep_first (id_of h) (one_pass h states).
Proof.
  intros Hall Hsucc.
  assert (Hpass : Forall (allocated h) (one_pass h states)).
  { apply Forall_forall. intros q [Hq|(p & Hp & Hq)]%one_pass_elem.
    - by eapply Forall_forall in Hall.
    - specialize (Hsucc p Hp). by eapply Forall_forall in Hsucc. }
  exists (keep_first (id_of h) (one_pass h states)).
  split; [|split; [|split; [|split]]].
  - unfold adaptEpsilonTransition.
    rewrite adaptEpsilonTransition_loop_spec by done. simpl.
    by apply removeDuplicate_spec.
  - intros p Hp. apply keep_first_keys, one_pass_elem. by left.
  - intros q Hq%keep_first_subseteq. by apply one_pass_elem.
  - apply keep_first_NoDup.
  - done.
Qed.

End simulator.

(** ** Concrete scenarios of the simulator *)
Section scenarios.

Lemma adaptEpsilonTransition_one_pass_witness :
  Forall (allocated chain) [Some 0%nat]
  ∧ ∃ r, adaptEpsilonTransition chain [Some 0%nat] = Ok r
         ∧ NoDup (id_of chain <$> r)
         ∧ r = keep_first (id_of chain) (one_pass chain [Some 0%nat]).
Proof.
  assert (H0 : Forall (allocated chain) [Some 0%nat]).
  { repeat constructor. by eexists _, _. }
  assert (H1 : ∀ p, p ∈ [Some 0%nat] →
                    Forall (allocated chain) (epsilon_successors chain p)).
  { intros p ->%list_elem_of_singleton. repeat constructor. by eexists _, _. }
  split; [exact H0|].
  destruct (adaptEpsilonTransition_one_pass chain [Some 0%nat] H0 H1)
    as (r & Hr & _ & _ & Hnd & Heq).
  by exists r.
Defined.

(** C1: adaptEpsilonTransition makes one pass of ε-moves and is not
    idempotent. On the automaton compiled from Union(Union(a, b), c) the
    first pass from the start state q7 gives q4, q5, q7 and a second pass
    adds q0 and q2. The simulator makes two passes before it reads a
    character, so the automaton of Union(Union(Union(a, b), c), d), whose
    start state is three ε-moves away from the states that read a or b,
    rejects the subjects a and b. *)
Theorem adaptEpsilonTransition_second_pass_adds_states :
  let abc := Union (Union (Symbol "a") (Symbol "b")) (Symbol "c") in
  let abcd := Union abc (Symbol "d") in
  passes_from_start abc 1 = Ok [4; 5; 7]
  ∧ passes_from_start abc 2 = Ok [0; 2; 4; 5; 7]
  ∧ compile_and_accept abcd "a" = Ok false
  ∧ compile_and_accept abcd "b" = Ok false
  ∧ compile_and_accept abcd "c" = Ok true
  ∧ compile_and_accept abcd "d" = Ok true.
Proof. repeat split; vm_compute; reflexivity. Qed.

(** C2: the automaton compiled from Union(Star(Symbol a), Symbol b) accepts
    the empty string, a, aaaa and b and rejects ab, ba, bb and c; the
    automaton compiled from Concat(Symbol a, Symbol b) accepts ab and
    rejects the empty string, a, b and abc. *)
Theorem Accept_scenarios :
  let star_or := Union (Star (Symbol "a")) (Symbol "b") in
  let cat := Concat (Symbol "a") (Symbol "b") in
  compile_and_accept star_or "" = Ok true
  ∧ compile_and_accept star_or "a" = Ok true
  ∧ compile_and_accept star_or "aaaa" = Ok true
  ∧ compile_and_accept star_or "b" = Ok true
  ∧ compile_and_accept star_or "ab" = Ok false
  ∧ compile_and_accept star_or "ba" = Ok false
  ∧ compile_and_accept star_or "bb" = Ok false
  ∧ compile_and_accept star_or "c" = Ok false
  ∧ compile_and_accept cat "ab" = Ok true
  ∧ compile_and_accept cat "" = Ok false
  ∧ compile_and_accept cat "a" = Ok false
  ∧ compile_and_accept cat "b" = Ok false
  ∧ compile_and_accept cat "abc" = Ok false.
Proof. repeat split; vm_compute; reflexivity. Qed.

End scenarios.

(** ** The generator *)
Section generator.

Lemma ST_bind_Ok {S A B} (m : ST S A) (f : A → ST S B) s a s' :
  m s = (Ok a, s') → (m ≫= f) s = f a s'.
Proof. intros Hm. unfold mbind, ST_bind. by rewrite Hm. Qed.

Lemma newState_eq g (h : list State) :
  newState (g, h)
  = (Ok (Some (length h)),
     ({| StateCount := int_wrap (StateCount g + 1) |},
      h ++ [{| ID := StateCount g; Nexts := ∅ |}])).
Proof. reflexivity. Qed.

Lemma getNexts_eq p k g (h : list State) l s :
  p = Some l → h !! l = Some s →
  getNexts p k (g, h) = (Ok (default [] (Nexts s !! k)), (g, h)).
Proof. intros -> Hl. unfold getNexts. simpl. by rewrite Hl. Qed.

Lemma setNexts_eq p k v g (h : list State) l s :
  p = Some l → h !! l = Some s →
  setNexts p k v (g, h)
  = (Ok (), (g, <[l := {| ID := ID s; Nexts := <[k := v]> (Nexts s) |}]> h)).
Proof. intros -> Hl. unfold setNexts. by rewrite Hl. Qed.

Lemma count_from_S c i : count_from c (S i) = int_wrap (count_from c i + 1).
Proof. reflexivity. Qed.

Lemma count_from_add c i j :
  count_from (count_from c i) j = count_from c (i + j).
Proof.
  unfold count_from. rewrite (Nat.add_comm i j). symmetry. apply Nat.iter_add.
Qed.

Lemma count_from_in_range c i :
  0 <= c → c + Z.of_nat i <= max_int → count_from c i = c + Z.of_nat i.
Proof.
  unfold max_int. induction i as [|i IH]; intros Hc Hi.
  - simpl. lia.
  - rewrite count_from_S, IH by lia. unfold int_wrap.
    rewrite Z.mod_small by lia. lia.
Qed.

Lemma epsilon_only_one_symbol s : epsilon_only s → one_symbol s.
Proof.
  unfold epsilon_only, one_symbol. intros Hs.
  rewrite <- size_dom. apply subseteq_size in Hs.
  by rewrite size_singleton in Hs.
Qed.


Lemma insert_last {A} (l : list A) x y : <[length l := x]> (l ++ [y]) = l ++ [x].
Proof.
  rewrite insert_app_r_alt by lia. by rewrite Nat.sub_diag.
Qed.

(** What the loop [appendEpsilon] leaves behind. *)
Lemma appendEpsilon_spec target accepts : ∀ g (h : list State),
  (∀ p, p ∈ accepts → ∃ l s, p = Some l ∧ h !! l = Some s ∧ epsilon_only s) →
  ∃ h' : list State,
    appendEpsilon target accepts (g, h) = (Ok (), (g, h'))
    ∧ relinked accepts h h'.
Proof.
  induction accepts as [|p accepts IH]; intros g h Hacc.
  - exists h. repeat split. intros l s' Hl. exists s'. auto.
  - destruct (Hacc p) as (l & s & -> & Hl & Heps); [left|].
    set (s1 := {| ID := ID s; Nexts := <[epsilon := default [] (Nexts s !! epsilon) ++ [target]]> (Nexts s) |}).
    assert (Heps1 : epsilon_only s1).
    { unfold epsilon_only, s1 in *. simpl. rewrite dom_insert.
      by apply union_least. }
    destruct (IH g (<[l := s1]> h)) as (h' & Hrun & Hlen & Hpost).
    { intros q Hq. destruct (Hacc q) as (l' & s' & -> & Hl' & Heps'); [by right|].
      destruct (decide (l = l')) as [<-|Hne].
      - exists l, s1. rewrite list_lookup_insert_eq by by eapply lookup_lt_Some. done.
      - exists l', s'. by rewrite list_lookup_insert_ne. }
    exists h'. split; [|split].
    + simpl. erewrite ST_bind_Ok by by eapply getNexts_eq.
      erewrite ST_bind_Ok by by eapply setNexts_eq.
      exact Hrun.
    + by rewrite Hlen, length_insert.
    + intros l' s' Hl'. destruct (Hpost l' s' Hl') as (s2 & Hs2 & Hid & Hor).
      destruct (decide (l = l')) as [<-|Hne].
      * rewrite list_lookup_insert_eq in Hs2 by by eapply lookup_lt_Some.
        injection Hs2 as <-. exists s. split; [done|]. split; [by rewrite Hid|].
        right. split; [left|].
        destruct Hor as [->|[_ ?]]; done.
      * rewrite list_lookup_insert_ne in Hs2 by done.
        exists s2. split; [done|]. split; [done|].
        destruct Hor as [->|[? ?]]; [by left|right]. split; [by right|done].
Qed.

Lemma grown_trans g h n1 g1 h1 n2 g2 h2 :
  grown g h n1 g1 h1 → grown g1 h1 n2 g2 h2 → grown g h (n1 + n2) g2 h2.
Proof.
  intros [Hc1 Hl1 Hf1 Hn1] [Hc2 Hl2 Hf2 Hn2]. split.
  - by rewrite Hc2, Hc1, count_from_add.
  - lia.
  - intros l Hl. rewrite Hf2 by lia. by apply Hf1.
  - intros i Hi. destruct (decide (i < n1)%nat) as [Hlt|Hge].
    + rewrite Hf2 by lia. by apply Hn1.
    + destruct (Hn2 (i - n1)%nat) as (s & Hs & Hid & Hone); [lia|].
      exists s. split; [|split; [|done]].
      * rewrite <- Hs. f_equal. lia.
      * rewrite Hid, Hc1, count_from_add. f_equal. lia.
Qed.

(** One allocation, the new state being given transitions on [k] only. *)
Lemma grown_newState g (h : list State) k v :
  grown g h 1 {| StateCount := int_wrap (StateCount g + 1) |}
        (h ++ [{| ID := StateCount g; Nexts := <[k := v]> ∅ |}]).
Proof.
  split; simpl.
  - done.
  - rewrite length_app. simpl. lia.
  - intros l Hl. by rewrite lookup_app_l.
  - intros i Hi. assert (i = 0%nat) as -> by lia.
    exists {| ID := StateCount g; Nexts := <[k := v]> ∅ |}.
    split; [|split; [done|]].
    + rewrite Nat.add_0_r. apply list_lookup_middle. done.
    + unfold one_symbol. simpl. rewrite insert_empty, map_size_singleton. done.
Qed.

Lemma grown_relinked g h n g' h' touched h'' :
  grown g h n g' h' → relinked touched h' h'' →
  (∀ l, Some l ∈ touched → (length h ≤ l)%nat) →
  grown g h n g' h''.
Proof.
  intros [Hc Hl Hf Hn] [Hlen Hpost] Htouched. split.
  - done.
  - lia.
  - intros l Hlt.
    destruct (lookup_lt_is_Some_2 h'' l) as [s' Hs']; [lia|].
    destruct (Hpost l s' Hs') as (s & Hs & _ & [->|[Hin _]]).
    + rewrite Hs', <- Hs. by apply Hf.
    + apply Htouched in Hin. lia.
  - intros i Hi.
    destruct (Hn i Hi) as (s & Hs & Hid & Hone).
    destruct (lookup_lt_is_Some_2 h'' (length h + i)%nat) as [s' Hs']; [lia|].
    destruct (Hpost _ s' Hs') as (s2 & Hs2 & Hid2 & Hor).
    assert (s2 = s) as -> by congruence.
    exists s'. split; [done|]. split; [congruence|].
    destruct Hor as [->|[_ ?]]; [done|]. by apply epsilon_only_one_symbol.
Qed.

Lemma fragment_states_bounds h n a h' p :
  fragment h n a h' → p ∈ States a →
  ∃ l, p = Some l ∧ (length h ≤ l < length h + n)%nat.
Proof.
  intros [Hst _ _] Hp. rewrite Hst in Hp.
  apply list_elem_of_fmap in Hp as (l & -> & Hl).
  apply elem_of_seq in Hl. by exists l.
Qed.

Lemma fragment_accepts_bounds h n a h' l :
  fragment h n a h' → Some l ∈ AcceptStates a → (length h ≤ l < length h + n)%nat.
Proof.
  intros Hfr Hl. destruct Hfr as [Hst [_ Hsub] Hacc].
  apply Hsub in Hl. rewrite Hst in Hl.
  apply list_elem_of_fmap in Hl as (l' & [= <-] & Hl).
  by apply elem_of_seq in Hl.
Qed.

Lemma genSymbolNFA_generated symbol g (h : list State) :
  ∃ a g' h', genSymbolNFA symbol (g, h) = (Ok a, (g', h'))
             ∧ grown g h 2 g' h' ∧ fragment h 2 a h'.
Proof.
  set (s0 := {| ID := StateCount g; Nexts := ∅ |}).
  set (s1 := {| ID := int_wrap (StateCount g + 1); Nexts := ∅ |}).
  set (s0' := {| ID := StateCount g;
                 Nexts := <[symbol := [Some (S (length h))]]> ∅ |}).
  assert (Hlook : ((h ++ [s0]) ++ [s1]) !! length h = Some s0).
  { rewrite <- app_assoc. by apply list_lookup_middle. }
  exists (newNFA [Some (length h); Some (S (length h))] (Some (length h))
                 [Some (S (length h))]),
         {| StateCount := int_wrap (int_wrap (StateCount g + 1) + 1) |},
         (h ++ [s0'; s1]).
  split; [|split].
  - unfold genSymbolNFA.
    erewrite ST_bind_Ok by apply newState_eq.
    erewrite ST_bind_Ok by apply newState_eq.
    erewrite ST_bind_Ok by (by eapply getNexts_eq).
    erewrite ST_bind_Ok by (by eapply setNexts_eq).
    unfold mret, ST_ret, s0', s0, s1.
    rewrite !length_app. simpl. rewrite Nat.add_1_r, <- app_assoc. simpl.
    rewrite insert_app_r_alt, Nat.sub_diag by lia. simpl.
    by rewrite lookup_empty.
  - split; simpl.
    + done.
    + rewrite length_app. simpl. lia.
    + intros l Hl. by rewrite lookup_app_l.
    + intros i Hi. destruct i as [|[|i]]; [| |lia].
      * exists s0'. split; [|split; [done|]].
        -- rewrite Nat.add_0_r. by apply list_lookup_middle.
        -- unfold one_symbol. simpl. by rewrite insert_empty, map_size_singleton.
      * exists s1. split; [|split; [done|]].
        -- rewrite lookup_app_r by lia.
           by replace (length h + 1 - length h)%nat with 1%nat by lia.
        -- unfold one_symbol. simpl. by rewrite map_size_empty; lia.
  - split; simpl.
    + done.
    + split; simpl.
      * left.
      * intros p ->%list_elem_of_singleton. right. left.
    + intros p ->%list_elem_of_singleton. exists (S (length h)), s1.
      split; [done|]. split.
      * rewrite lookup_app_r by lia.
        by replace (S (length h) - length h)%nat with 1%nat by lia.
      * unfold epsilon_only. simpl. by rewrite dom_empty.
Qed.

Lemma relinked_epsilon_only touched (h h' : list State) l s :
  relinked touched h h' → h !! l = Some s → epsilon_only s →
  ∃ s', h' !! l = Some s' ∧ epsilon_only s'.
Proof.
  intros [Hlen Hpost] Hl Heps.
  destruct (lookup_lt_is_Some_2 h' l) as [s' Hs'].
  { rewrite Hlen. by eapply lookup_lt_Some. }
  exists s'. split; [done|].
  destruct (Hpost l s' Hs') as (s2 & Hs2 & _ & [Heq|[_ ?]]); [|done].
  assert (s2 = s) as -> by congruence. by rewrite Heq.
Qed.

Lemma epsilon_only_singleton id v :
  epsilon_only {| ID := id; Nexts := <[epsilon := v]> ∅ |}.
Proof. unfold epsilon_only. simpl. by rewrite insert_empty, dom_singleton. Qed.

Lemma genUnionNFA_generated g h n1 l g1 h1 n2 r g2 h2 :
  grown g h n1 g1 h1 → fragment h n1 l h1 →
  grown g1 h1 n2 g2 h2 → fragment h1 n2 r h2 →
  ∃ a g' h', genUnionNFA (Some l) (Some r) (g2, h2) = (Ok a, (g', h'))
             ∧ grown g h (n1 + n2 + 1) g' h' ∧ fragment h (n1 + n2 + 1) a h'.
Proof.
  intros G1 F1 G2 F2.
  set (s := {| ID := StateCount g2;
               Nexts := <[epsilon := [StartState l; StartState r]]> ∅ |}).
  exists (newNFA (([Some (length h2)] ++ States l) ++ States r) (Some (length h2))
                 (AcceptStates l ++ AcceptStates r)),
         {| StateCount := int_wrap (StateCount g2 + 1) |}, (h2 ++ [s]).
  split; [|split].
  - unfold genUnionNFA.
    erewrite ST_bind_Ok by apply newState_eq.
    erewrite ST_bind_Ok by reflexivity.
    erewrite ST_bind_Ok by reflexivity.
    erewrite ST_bind_Ok
      by (eapply setNexts_eq; [done|by apply list_lookup_middle]).
    unfold mret, ST_ret. simpl. by rewrite insert_last.
  - eapply grown_trans; [by eapply grown_trans|]. apply grown_newState.
  - destruct F1 as [S1 [I1 A1] E1], F2 as [S2 [I2 A2] E2].
    destruct G1 as [_ L1 _ _], G2 as [_ L2 Fr2 _].
    split; simpl.
    + rewrite S1, S2, L2, L1, !seq_app, !fmap_app. simpl.
      rewrite <- Nat.add_assoc. by rewrite Permutation_cons_append, <- app_assoc.
    + split; simpl; [left|].
      intros p [Hp|Hp]%elem_of_app; right; apply elem_of_app; [left|right]; auto.
    + intros p [Hp|Hp]%elem_of_app.
      * destruct (E1 p Hp) as (l0 & s0 & -> & Hl0 & Heps).
        exists l0, s0. split; [done|]. split; [|done].
        rewrite lookup_app_l by (apply lookup_lt_Some in Hl0; lia).
        rewrite Fr2; [done|]. by eapply lookup_lt_Some.
      * destruct (E2 p Hp) as (l0 & s0 & -> & Hl0 & Heps).
        exists l0, s0. split; [done|]. split; [|done].
        rewrite lookup_app_l; [done|]. by eapply lookup_lt_Some.
Qed.

Lemma genConcateNFA_generated g h n1 l g1 h1 n2 r g2 h2 :
  grown g h n1 g1 h1 → fragment h n1 l h1 →
  grown g1 h1 n2 g2 h2 → fragment h1 n2 r h2 →
  ∃ a g' h', genConcateNFA (Some l) (Some r) (g2, h2) = (Ok a, (g', h'))
             ∧ grown g h (n1 + n2) g' h' ∧ fragment h (n1 + n2) a h'.
Proof.
  intros G1 F1 G2 F2.
  destruct (appendEpsilon_spec (StartState r) (AcceptStates l) g2 h2)
    as (h' & Hrun & Hrel).
  { intros p Hp. destruct F1 as [_ _ E1].
    destruct (E1 p Hp) as (l0 & s0 & -> & Hl0 & Heps).
    exists l0, s0. split; [done|]. split; [|done].
    destruct G2 as [_ _ Fr2 _]. rewrite Fr2; [done|]. by eapply lookup_lt_Some. }
  exists (newNFA (States l ++ States r) (StartState l) (AcceptStates r)), g2, h'.
  split; [|split].
  - unfold genConcateNFA.
    erewrite ST_bind_Ok by reflexivity.
    erewrite ST_bind_Ok by reflexivity.
    by erewrite ST_bind_Ok by exact Hrun.
  - eapply grown_relinked; [by eapply grown_trans|exact Hrel|].
    intros l0 Hl0. eapply fragment_accepts_bounds in Hl0; [|exact F1]. lia.
  - destruct F1 as [S1 [I1 A1] E1], F2 as [S2 [I2 A2] E2].
    destruct G1 as [_ L1 _ _].
    split; simpl.
    + by rewrite S1, S2, L1, seq_app, fmap_app.
    + split; simpl.
      * apply elem_of_app. by left.
      * intros p Hp. apply elem_of_app. right. auto.
    + intros p Hp. destruct (E2 p Hp) as (l0 & s0 & -> & Hl0 & Heps).
      destruct (relinked_epsilon_only _ _ _ _ _ Hrel Hl0 Heps) as (s' & ? & ?).
      by exists l0, s'.
Qed.

Lemma genStarNFA_generated g h n o g1 h1 :
  grown g h n g1 h1 → fragment h n o h1 →
  ∃ a g' h', genStarNFA (Some o) (g1, h1) = (Ok a, (g', h'))
             ∧ grown g h (n + 1) g' h' ∧ fragment h (n + 1) a h'.
Proof.
  intros G1 F1.
  set (s := {| ID := StateCount g1; Nexts := <[epsilon := [StartState o]]> ∅ |}).
  set (g2 := {| StateCount := int_wrap (StateCount g1 + 1) |}).
  destruct (appendEpsilon_spec (StartState o) (AcceptStates o) g2 (h1 ++ [s]))
    as (h' & Hrun & Hrel).
  { intros p Hp. destruct F1 as [_ _ E1].
    destruct (E1 p Hp) as (l0 & s0 & -> & Hl0 & Heps).
    exists l0, s0. split; [done|]. split; [|done].
    rewrite lookup_app_l; [done|]. by eapply lookup_lt_Some. }
  exists (newNFA (States o ++ [Some (length h1)]) (Some (length h1))
                 (AcceptStates o ++ [Some (length h1)])), g2, h'.
  split; [|split].
  - unfold genStarNFA.
    erewrite ST_bind_Ok by apply newState_eq.
    erewrite ST_bind_Ok by reflexivity.
    erewrite ST_bind_Ok
      by (eapply setNexts_eq; [done|by apply list_lookup_middle]).
    rewrite insert_last.
    by erewrite ST_bind_Ok by exact Hrun.
  - eapply grown_relinked; [|exact Hrel|].
    + eapply grown_trans; [exact G1|]. apply grown_newState.
    + intros l0 Hl0. eapply fragment_accepts_bounds in Hl0; [|exact F1]. lia.
  - destruct F1 as [S1 [I1 A1] E1]. destruct G1 as [_ L1 _ _].
    split; simpl.
    + by rewrite S1, L1, seq_app, fmap_app.
    + split; simpl.
      * apply elem_of_app. right. left.
      * intros p [Hp|Hp]%elem_of_app; apply elem_of_app; [left|right]; auto.
    + intros p [Hp|Hp%list_elem_of_singleton]%elem_of_app.
      * destruct (E1 p Hp) as (l0 & s0 & -> & Hl0 & Heps).
        assert (Hl0' : (h1 ++ [s]) !! l0 = Some s0).
        { rewrite lookup_app_l; [done|]. by eapply lookup_lt_Some. }
        destruct (relinked_epsilon_only _ _ _ _ _ Hrel Hl0' Heps) as (s' & ? & ?).
        by exists l0, s'.
      * subst p.
        assert (Hs : (h1 ++ [s]) !! length h1 = Some s) by by apply list_lookup_middle.
        destruct (relinked_epsilon_only _ _ _ _ _ Hrel Hs) as (s' & ? & ?).
        { apply epsilon_only_singleton. }
        by exists (length h1), s'.
Qed.

Lemma expected_states_union value l r :
  expected_states (mkNode ND_UNION value (Some l) (Some r))
  = (expected_states l + expected_states r + 1)%nat.
Proof. unfold expected_states. simpl. lia. Qed.

Lemma expected_states_concat value l r :
  expected_states (mkNode ND_CONCAT value (Some l) (Some r))
  = (expected_states l + expected_states r)%nat.
Proof. unfold expected_states. simpl. lia. Qed.

Lemma expected_states_star value l rhs :
  expected_states (mkNode ND_STAR value (Some l) rhs)
  = (expected_states l + 1)%nat.
Proof. unfold expected_states. simpl. lia. Qed.

(** The generator succeeds on every well-formed AST, from any generator and
    store. *)
Lemma gen_generated node : ∀ g (h : list State),
  well_formed node = true →
  ∃ a g' h', gen node (g, h) = (Ok (Some a), (g', h'))
             ∧ grown g h (expected_states node) g' h'
             ∧ fragment h (expected_states node) a h'.
Proof.
  induction node as [ty value lhs rhs IHl IHr] using Node_tree_ind.
  intros g h Hwf. destruct ty; simpl in Hwf.
  - destruct (genSymbolNFA_generated value g h) as (a & g' & h' & Hrun & G & F).
    exists a, g', h'. split; [|done].
    simpl. by erewrite ST_bind_Ok by exact Hrun.
  - destruct lhs as [l|], rhs as [r|]; try done.
    apply andb_true_iff in Hwf as [Hwl Hwr]. simpl in IHl, IHr.
    destruct (IHl g h Hwl) as (a1 & g1 & h1 & Hrun1 & G1 & F1).
    destruct (IHr g1 h1 Hwr) as (a2 & g2 & h2 & Hrun2 & G2 & F2).
    destruct (genUnionNFA_generated _ _ _ _ _ _ _ _ _ _ G1 F1 G2 F2)
      as (a & g' & h' & Hrun & G & F).
    exists a, g', h'. rewrite expected_states_union. split; [|done].
    simpl. erewrite ST_bind_Ok by exact Hrun1.
    erewrite ST_bind_Ok by exact Hrun2.
    by erewrite ST_bind_Ok by exact Hrun.
  - destruct lhs as [l|], rhs as [r|]; try done.
    apply andb_true_iff in Hwf as [Hwl Hwr]. simpl in IHl, IHr.
    destruct (IHl g h Hwl) as (a1 & g1 & h1 & Hrun1 & G1 & F1).
    destruct (IHr g1 h1 Hwr) as (a2 & g2 & h2 & Hrun2 & G2 & F2).
    destruct (genConcateNFA_generated _ _ _ _ _ _ _ _ _ _ G1 F1 G2 F2)
      as (a & g' & h' & Hrun & G & F).
    exists a, g', h'. rewrite expected_states_concat. split; [|done].
    simpl. erewrite ST_bind_Ok by exact Hrun1.
    erewrite ST_bind_Ok by exact Hrun2.
    by erewrite ST_bind_Ok by exact Hrun.
  - destruct lhs as [l|]; [|done]. simpl in IHl.
    destruct (IHl g h Hwf) as (a1 & g1 & h1 & Hrun1 & G1 & F1).
    destruct (genStarNFA_generated _ _ _ _ _ _ G1 F1)
      as (a & g' & h' & Hrun & G & F).
    exists a, g', h'. rewrite expected_states_star. split; [|done].
    simpl. erewrite ST_bind_Ok by exact Hrun1.
    by erewrite ST_bind_Ok by exact Hrun.
  - done.
Qed.

Lemma CreateNFA_generated node :
  well_formed node = true →
  ∃ a g' h', CreateNFA node = (Ok (Some a), (g', h'))
             ∧ grown newGenerator [] (expected_states node) g' h'
             ∧ fragment [] (expected_states node) a h'.
Proof. apply gen_generated. Qed.

(** C3: for every AST, with k Symbol leaves, u Union nodes, c Concat nodes
    and s Star nodes, CreateNFA returns an automaton whose States list has
    exactly 2k + u + s elements (Concat nodes add none), and that number is
    the generator's final StateCount (the count being within the range of
    an int). *)
Theorem CreateNFA_state_count node :
  well_formed node = true →
  ∃ a g' h',
    CreateNFA node = (Ok (Some a), (g', h'))
    ∧ length (States a)
      = (2 * count ND_SYMBOL node + count ND_UNION node + count ND_STAR node)%nat
    ∧ (Z.of_nat (2 * count ND_SYMBOL node + count ND_UNION node
                 + count ND_STAR node) <= max_int →
       StateCount g' = Z.of_nat (length (States a))).
Proof.
  intros Hwf.
  destruct (CreateNFA_generated node Hwf) as (a & g' & h' & Hrun & G & F).
  exists a, g', h'. split; [done|].
  assert (Hlen : length (States a) = expected_states node).
  { destruct F as [-> _ _]. by rewrite length_fmap, length_seq. }
  split; [done|].
  intros Hmax. destruct G as [-> _ _ _]. simpl.
  rewrite Hlen. by apply count_from_in_range.
Qed.

Lemma CreateNFA_state_count_witness :
  let node := Union (Star (Symbol "a")) (Concat (Symbol "b") (Symbol "c")) in
  well_formed node = true
  ∧ ∃ a g' h',
      CreateNFA node = (Ok (Some a), (g', h'))
      ∧ length (States a) = 8%nat
      ∧ StateCount g' = 8.
Proof.
  split; [reflexivity|].
  destruct (CreateNFA_state_count
              (Union (Star (Symbol "a")) (Concat (Symbol "b") (Symbol "c")))
              eq_refl) as (a & g' & h' & Hrun & Hlen & Hcount).
  exists a, g', h'. split; [exact Hrun|]. split; [exact Hlen|].
  rewrite Hcount, Hlen; [reflexivity|]. vm_compute. discriminate.
Defined.

Lemma grown_IDs g' (h' : list State) n :
  grown newGenerator [] n g' h' → Z.of_nat n <= max_int →
  ID <$> h' = Z.of_nat <$> seq 0 n.
Proof.
  intros [_ Hlen _ Hnew] Hmax. simpl in *.
  apply list_eq. intros i. rewrite !list_lookup_fmap.
  destruct (decide (i < n)%nat) as [Hi|Hi].
  - destruct (Hnew i Hi) as (s & -> & Hid & _). simpl.
    rewrite lookup_seq_lt by done. simpl. f_equal.
    rewrite Hid. rewrite count_from_in_range; lia.
  - rewrite lookup_ge_None_2 by lia.
    by rewrite lookup_seq_ge by lia.
Qed.

(** C6: newState returns a state that was not in the store before, whose ID
    is the counter's value, and increments the counter; hence, after
    CreateNFA on an AST (whose number of states is within the range of an
    int), the i-th allocated state has ID i, the IDs of the automaton's
    states are 0 to n-1, each once, and so pairwise distinct, also when two
    sub-patterns are structurally identical. *)
Theorem CreateNFA_fresh_IDs :
  (∀ g (h : list State),
     ∃ l s g' h',
       newState (g, h) = (Ok (Some l), (g', h'))
       ∧ h !! l = None ∧ h' = h ++ [s] ∧ h' !! l = Some s
       ∧ ID s = StateCount g
       ∧ (- 2 ^ 63 <= StateCount g < max_int → StateCount g' = StateCount g + 1))
  ∧ (∀ node,
       well_formed node = true →
       Z.of_nat (expected_states node) <= max_int →
       ∃ a g' h',
         CreateNFA node = (Ok (Some a), (g', h'))
         ∧ ID <$> h' = Z.of_nat <$> seq 0 (expected_states node)
         ∧ id_of h' <$> States a ≡ₚ Z.of_nat <$> seq 0 (length (States a))
         ∧ NoDup (id_of h' <$> States a)).
Proof.
  split.
  - intros g h.
    exists (length h), {| ID := StateCount g; Nexts := ∅ |},
           {| StateCount := int_wrap (StateCount g + 1) |},
           (h ++ [{| ID := StateCount g; Nexts := ∅ |}]).
    split; [done|]. split; [by apply lookup_ge_None_2|].
    split; [done|]. split; [by apply list_lookup_middle|].
    split; [done|].
    simpl. unfold int_wrap, max_int. intros Hc.
    rewrite Z.mod_small by lia. lia.
  - intros node Hwf Hmax.
    destruct (CreateNFA_generated node Hwf) as (a & g' & h' & Hrun & G & F).
    exists a, g', h'. split; [done|].
    pose proof (grown_IDs _ _ _ G Hmax) as Hids.
    assert (Hperm : id_of h' <$> States a
                    ≡ₚ Z.of_nat <$> seq 0 (expected_states node)).
    { destruct F as [-> _ _]. simpl. rewrite <- list_fmap_compose.
      erewrite list_fmap_ext; [done|]. intros i l Hl. simpl.
      apply lookup_seq in Hl as [-> Hlt]. simpl.
      assert (Hi : (ID <$> h') !! i = Some (Z.of_nat i)).
      { rewrite Hids, list_lookup_fmap, lookup_seq_lt by done. done. }
      rewrite list_lookup_fmap in Hi. unfold id_of, deref.
      destruct (h' !! i) as [s|]; simpl in Hi; [|done]. by injection Hi. }
    assert (Hlen : length (States a) = expected_states node).
    { destruct F as [-> _ _]. by rewrite length_fmap, length_seq. }
    split; [done|]. split; [by rewrite Hlen|].
    rewrite Hperm. apply NoDup_fmap; [apply _|apply NoDup_seq].
Qed.

Lemma CreateNFA_fresh_IDs_witness :
  let node := Concat (Star (Symbol "a")) (Star (Symbol "a")) in
  ∃ a g' h',
    CreateNFA node = (Ok (Some a), (g', h'))
    ∧ ID <$> h' = Z.of_nat <$> seq 0 (expected_states node)
    ∧ id_of h' <$> States a ≡ₚ Z.of_nat <$> seq 0 (length (States a))
    ∧ NoDup (id_of h' <$> States a).
Proof.
  apply (proj2 CreateNFA_fresh_IDs
           (Concat (Star (Symbol "a")) (Star (Symbol "a")))).
  - reflexivity.
  - vm_compute. discriminate.
Defined.

Lemma nfa_invariant_newNFA states start accepts :
  start ∈ states → accepts ⊆ states → nfa_invariant (newNFA states start accepts).
Proof. by split. Qed.

Lemma appendEpsilon_result target accepts st r st' :
  appendEpsilon target accepts st = (r, st') → r = Ok () ∨ r = Panic.
Proof. destruct r as [[]|]; auto. Qed.

(** C4: the automaton returned by genSymbolNFA satisfies the invariant
    (start state and accept states are among its states); genUnionNFA,
    genConcateNFA and genStarNFA return automata that satisfy it when their
    arguments do; hence gen, from any generator and store, and CreateNFA
    return on every AST an automaton that satisfies it. *)
Theorem generation_keeps_nfa_invariant :
  (∀ symbol st a st', genSymbolNFA symbol st = (Ok a, st') → nfa_invariant a)
  ∧ (∀ l r st a st',
       nfa_invariant l → nfa_invariant r →
       genUnionNFA (Some l) (Some r) st = (Ok a, st') → nfa_invariant a)
  ∧ (∀ l r st a st',
       nfa_invariant l → nfa_invariant r →
       genConcateNFA (Some l) (Some r) st = (Ok a, st') → nfa_invariant a)
  ∧ (∀ o st a st',
       nfa_invariant o →
       genStarNFA (Some o) st = (Ok a, st') → nfa_invariant a)
  ∧ (∀ node g (h : list State),
       well_formed node = true →
       ∃ a st', gen node (g, h) = (Ok (Some a), st') ∧ nfa_invariant a)
  ∧ (∀ node,
       well_formed node = true →
       ∃ a st', CreateNFA node = (Ok (Some a), st') ∧ nfa_invariant a).
Proof.
  split; [|split; [|split; [|split; [|split]]]].
  - intros symbol [g h] a st' Hrun.
    destruct (genSymbolNFA_generated symbol g h) as (a' & g' & h' & Hrun' & _ & F).
    rewrite Hrun' in Hrun. injection Hrun as <- _. by destruct F.
  - intros l r [g h] a st' [Il Al] [Ir Ar]. unfold genUnionNFA.
    erewrite ST_bind_Ok by apply newState_eq.
    erewrite ST_bind_Ok by reflexivity.
    erewrite ST_bind_Ok by reflexivity.
    erewrite ST_bind_Ok
      by (eapply setNexts_eq; [done|by apply list_lookup_middle]).
    intros [= <- _]. apply nfa_invariant_newNFA; [left|].
    intros p [Hp|Hp]%elem_of_app; right; apply elem_of_app; [left|right]; auto.
  - intros l r st a st' [Il Al] [Ir Ar]. unfold genConcateNFA.
    erewrite ST_bind_Ok by reflexivity.
    erewrite ST_bind_Ok by reflexivity.
    unfold mbind, ST_bind.
    destruct (appendEpsilon _ _ st) as [[[]|] st1]; [|done].
    intros [= <- _]. apply nfa_invariant_newNFA.
    + apply elem_of_app. by left.
    + intros p Hp. apply elem_of_app. right. auto.
  - intros o [g h] a st' [Io Ao]. unfold genStarNFA.
    erewrite ST_bind_Ok by apply newState_eq.
    erewrite ST_bind_Ok by reflexivity.
    erewrite ST_bind_Ok
      by (eapply setNexts_eq; [done|by apply list_lookup_middle]).
    unfold mbind, ST_bind.
    destruct (appendEpsilon _ _ _) as [[[]|] st1]; [|done].
    intros [= <- _]. apply nfa_invariant_newNFA.
    + apply elem_of_app. right. left.
    + intros p [Hp|Hp]%elem_of_app; apply elem_of_app; [left|right]; auto.
  - intros node g h Hwf.
    destruct (gen_generated node g h Hwf) as (a & g' & h' & Hrun & _ & F).
    exists a, (g', h'). split; [done|]. by destruct F.
  - intros node Hwf.
    destruct (CreateNFA_generated node Hwf) as (a & g' & h' & Hrun & _ & F).
    exists a, (g', h'). split; [done|]. by destruct F.
Qed.

Lemma generation_keeps_nfa_invariant_witness :
  ∃ a st', CreateNFA (Union (Star (Symbol "a")) (Symbol "b")) = (Ok (Some a), st')
           ∧ nfa_invariant a.
Proof.
  exact (proj2 (proj2 (proj2 (proj2 (proj2 generation_keeps_nfa_invariant))))
           (Union (Star (Symbol "a")) (Symbol "b")) eq_refl).
Defined.

Lemma ST_bind_not_nil {S A} (m : ST S A) (f : A → ST S (option NFA)) :
  (∀ a s s', f a s ≠ (Ok None, s')) → ∀ s s', (m ≫= f) s ≠ (Ok None, s').
Proof.
  intros Hf s s'. unfold mbind, ST_bind.
  destruct (m s) as [[a|] s1]; [apply Hf|done].
Qed.

(** C10: on a node whose Type is none of ND_SYMBOL, ND_UNION, ND_CONCAT and
    ND_STAR, gen and CreateNFA return nil, without a panic and leaving the
    generator and the store as they were; on a node of one of the four
    kinds they never return nil. *)
Theorem gen_nil_iff_unrecognized node :
  (recognized (parser.Type' node) = false →
     (∀ g (h : list State), gen node (g, h) = (Ok None, (g, h)))
     ∧ CreateNFA node = (Ok None, (newGenerator, [])))
  ∧ (recognized (parser.Type' node) = true →
     (∀ st st', gen node st ≠ (Ok None, st'))
     ∧ ∀ st', CreateNFA node ≠ (Ok None, st')).
Proof.
  destruct node as [ty value lhs rhs]. simpl.
  assert (Hsome : ∀ (a : NFA) (s s' : Generator * list State),
             mret (M := ST _) (Some a) s ≠ (Ok None, s')) by done.
  split.
  - intros Hty. by destruct ty.
  - intros Hty.
    assert (Hgen : ∀ st st', gen (mkNode ty value lhs rhs) st ≠ (Ok None, st')).
    { destruct ty; [..|done]; simpl;
        repeat (apply ST_bind_not_nil; intros); apply Hsome. }
    split; [done|]. intros st'. apply Hgen.
Qed.

Lemma gen_nil_iff_unrecognized_witness :
  gen (mkNode (ND_OTHER 7) 0 None None) (newGenerator, [])
  = (Ok None, (newGenerator, []))
  ∧ ∀ st st', gen (Symbol "a") st ≠ (Ok None, st').
Proof.
  split.
  - exact (proj1 (proj1 (gen_nil_iff_unrecognized (mkNode (ND_OTHER 7) 0 None None))
                    eq_refl) newGenerator []).
  - exact (proj1 (proj2 (gen_nil_iff_unrecognized (Symbol "a")) eq_refl)).
Defined.

End generator.

(** ** Diagram output *)
Section diagram.

Lemma range_order_forward : range_order forward.
Proof. by intros i m. Qed.

Lemma range_order_backward : range_order backward.
Proof. intros i m. unfold backward. by rewrite reverse_Permutation. Qed.

(** A map with at most one entry can be enumerated in one way only. *)
Lemma range_order_one_symbol order1 order2 i s :
  range_order order1 → range_order order2 → one_symbol s →
  order1 i (Nexts s) = order2 i (Nexts s).
Proof.
  intros H1 H2 Hone. specialize (H1 i (Nexts s)). specialize (H2 i (Nexts s)).
  unfold one_symbol in Hone. rewrite <- length_map_to_list in Hone.
  destruct (map_to_list (Nexts s)) as [|x [|y l]]; simpl in Hone; [| |lia].
  - apply Permutation_nil_r in H1, H2. congruence.
  - apply Permutation_singleton_r in H1, H2. congruence.
Qed.

Lemma DumpDOT_states_deterministic (h : list State) order1 order2 states :
  range_order order1 → range_order order2 →
  (∀ p s, p ∈ states → deref h p = Ok s → one_symbol s) →
  ∀ i out,
    DumpDOT_states h order1 i states out = DumpDOT_states h order2 i states out.
Proof.
  intros H1 H2. induction states as [|src rest IH]; intros Hone i out; [done|].
  simpl. unfold mbind, ST_bind, lift.
  destruct (deref h src) as [s|] eqn:Hs; [|done].
  rewrite (range_order_one_symbol order1 order2 i s H1 H2).
  - destruct (DumpDOT_symbols h src (order2 i (Nexts s)) out) as [[[]|] out1];
      [|done].
    apply IH. intros p s' Hp. apply Hone. by right.
  - apply (Hone src); [left|done].
Qed.

(** The automata of the generator have transitions on one symbol at most in
    each state. *)
Lemma CreateNFA_single_symbol node :
  well_formed node = true →
  ∃ a g' h', CreateNFA node = (Ok (Some a), (g', h')) ∧ single_symbol h' a.
Proof.
  intros Hwf.
  destruct (CreateNFA_generated node Hwf) as (a & g' & h' & Hrun & G & F).
  exists a, g', h'. split; [done|].
  intros p s Hp Hs. destruct F as [Hst _ _], G as [_ _ _ Hnew].
  rewrite Hst in Hp. apply list_elem_of_fmap in Hp as (i & -> & Hi).
  apply elem_of_seq in Hi. simpl in Hi.
  destruct (Hnew i) as (s' & Hs' & _ & Hone); [lia|].
  simpl in Hs'. unfold deref in Hs. rewrite Hs' in Hs. by injection Hs as <-.
Qed.

(** C8, counterexample: the output of DumpDOT depends on the order in
    which the entries of a state's transition map are enumerated. On the
    automaton [fork_nfa], whose state q0 has transitions on a and on b, two
    enumeration orders give two different outputs: the two edge lines are
    swapped. *)
Lemma DumpDOT_order_dependent :
  range_order forward ∧ range_order backward
  ∧ DumpDOT fork forward fork_nfa "" ≠ DumpDOT fork backward fork_nfa "".
Proof.
  split; [apply range_order_forward|]. split; [apply range_order_backward|].
  vm_compute. discriminate.
Qed.

(** C8: for a fixed automaton and store in which every state of
    the States list has transitions on at most one symbol, DumpDOT emits the
    same output, and ends the same way, whatever the order in which map
    entries are enumerated; every automaton that CreateNFA builds from an
    AST is of that kind. *)
Theorem DumpDOT_deterministic_one_symbol :
  (∀ (h : list State) nfa order1 order2 out,
     range_order order1 → range_order order2 → single_symbol h nfa →
     DumpDOT h order1 nfa out = DumpDOT h order2 nfa out)
  ∧ (∀ node, well_formed node = true →
       ∃ a g' h', CreateNFA node = (Ok (Some a), (g', h'))
                  ∧ single_symbol h' a).
Proof.
  split; [|apply CreateNFA_single_symbol].
  intros h a order1 order2 out H1 H2 Hone. unfold DumpDOT, mbind, ST_bind.
  destruct (fmt_Print _ out) as [[[]|] out1]; [|done].
  destruct (lift _ out1) as [[start|] out2]; [|done].
  destruct (fmt_Print _ out2) as [[[]|] out3]; [|done].
  destruct (DumpDOT_accepts h (AcceptStates a) out3) as [[[]|] out4]; [|done].
  by rewrite (DumpDOT_states_deterministic h order1 order2 (States a) H1 H2 Hone).
Qed.

Lemma DumpDOT_deterministic_one_symbol_witness :
  single_symbol chain chain_nfa
  ∧ DumpDOT chain forward chain_nfa "" = DumpDOT chain backward chain_nfa "".
Proof.
  assert (Hone : single_symbol chain chain_nfa).
  { intros p s Hp Hs. unfold one_symbol.
    repeat (apply elem_of_cons in Hp as [->|Hp]);
      [injection Hs as <-; vm_compute; lia ..|].
    by apply elem_of_nil in Hp. }
  split; [exact Hone|].
  exact (proj1 DumpDOT_deterministic_one_symbol chain chain_nfa forward backward ""
           range_order_forward range_order_backward Hone).
Defined.

End diagram.

(** * Further properties *)

Import notions.

Section tokens.

(** Every character of a concrete pattern is in the alphabet. *)
Ltac all_in_alphabet :=
  repeat first
    [ apply Forall_nil_2
    | apply Forall_cons_2
    | progress (unfold in_alphabet, ch; simpl; lia) ].






(** Case analysis on the kind of a token met by the loop. *)
Ltac by_kind t :=
  destruct t as [[] ?]; simpl in *;
  first [ reflexivity | exfalso; intuition congruence ].

Lemma spaced_snoc ts x :
  spaced (ts ++ [x])
  = spaced ts && match last ts with Some a => neighbours a x | None => true end.
Proof.
  induction ts as [|a ts IH]; [done|].
  destruct ts as [|b ts]; [simpl; by rewrite andb_true_r|].
  change (spaced ((a :: b :: ts) ++ [x]))
    with (neighbours a b && spaced ((b :: ts) ++ [x])).
  rewrite IH. change (last (a :: b :: ts)) with (last (b :: ts)).
  change (spaced (a :: b :: ts)) with (neighbours a b && spaced (b :: ts)).
  by rewrite andb_assoc.
Qed.

Lemma spaced_split ts l1 a b l2 :
  spaced ts = true → ts = l1 ++ a :: b :: l2 → neighbours a b = true.
Proof.
  intros Hsp ->. induction l1 as [|x l1 IH].
  - simpl in Hsp. by apply andb_true_iff in Hsp as [? _].
  - apply IH. destruct l1; simpl in Hsp; by apply andb_true_iff in Hsp as [_ ?].
Qed.

Lemma head_snoc_not_Concat (tokens : list Token) x :
  from_option (λ t, token.Type' t ≠ TK_CONCAT) True (head tokens) →
  (tokens = [] → token.Type' x ≠ TK_CONCAT) →
  from_option (λ t, token.Type' t ≠ TK_CONCAT) True (head (tokens ++ [x])).
Proof. destruct tokens; simpl; auto. Qed.

(** Invariant of the loop: neighbours are well placed, the first token is no
    Concat, and the last token is neither Concat nor EndOfInput. *)
Lemma Tokenize_loop_spaced regexp : ∀ tokens,
  Forall in_alphabet regexp →
  spaced tokens = true →
  from_option (λ t, token.Type' t ≠ TK_CONCAT ∧ token.Type' t ≠ TK_EOF)
              True (last tokens) →
  from_option (λ t, token.Type' t ≠ TK_CONCAT) True (head tokens) →
  ∃ ts, Tokenize_loop tokens regexp = Return ts ∧ spaced ts = true
        ∧ from_option (λ t, token.Type' t ≠ TK_CONCAT) True (head ts).
Proof.
  induction regexp as [|c rest IH]; intros tokens Hal Hsp Hlast Hhead; simpl.
  - eexists. split; [done|]. split; [|by apply head_snoc_not_Concat].
    rewrite spaced_snoc, Hsp. simpl.
    destruct (last tokens) as [t|]; [|done]. simpl in Hlast.
    unfold neighbours, is_kind. by_kind t.
  - apply Forall_cons in Hal as [Hc Hrest].
    apply in_alphabet_cases in Hc.
    destruct (isChar c) eqn:Hchar.
    + apply IH; [done| |by rewrite last_snoc|].
      * unfold lastTokenIsSymbol. rewrite spaced_snoc.
        destruct (last tokens) as [t|] eqn:Ht; simpl in *.
        -- case_bool_decide as Hsym.
           ++ rewrite last_snoc, spaced_snoc, Hsp, Ht. simpl.
              unfold neighbours, is_kind. by_kind t.
           ++ rewrite Hsp, Ht. simpl. unfold neighbours, is_kind. by_kind t.
        -- by rewrite Hsp, Ht.
      * apply head_snoc_not_Concat; [|done].
        unfold lastTokenIsSymbol.
        destruct (last tokens) as [t|] eqn:Ht; [|done].
        case_bool_decide; [|done].
        apply head_snoc_not_Concat; [done|]. by intros ->.
    + assert (Hother : ∀ k, k = TK_UNION ∨ k = TK_STAR →
                spaced (tokens ++ [newToken k c]) = true).
      { intros k Hk. rewrite spaced_snoc, Hsp. simpl.
        destruct (last tokens) as [t|]; [|done]. simpl in Hlast.
        unfold neighbours, is_kind. destruct Hk as [-> | ->]; by_kind t. }
      destruct Hc as [?|[->| ->]]; [done| |]; simpl;
        (apply IH; [done|by auto|by rewrite last_snoc|
                    by apply head_snoc_not_Concat]).
Qed.

(** X2: in the tokens that Tokenize returns for a pattern over the alphabet
    no two Symbol tokens are neighbours, a Concat token has a Symbol token
    on either side, and neither the first nor the last token is a Concat. *)
Theorem Tokenize_places_Concat (regexp : string) :
  Forall in_alphabet (range_runes regexp) →
  ∃ ts, Tokenize regexp = Return ts
        ∧ (∀ l1 a b l2, ts = l1 ++ a :: b :: l2 →
             ¬ (token.Type' a = TK_SYMBOL ∧ token.Type' b = TK_SYMBOL)
             ∧ (token.Type' b = TK_CONCAT → token.Type' a = TK_SYMBOL)
             ∧ (token.Type' a = TK_CONCAT → token.Type' b = TK_SYMBOL))
        ∧ (∀ t, head ts = Some t → token.Type' t ≠ TK_CONCAT)
        ∧ (∀ t, last ts = Some t → token.Type' t ≠ TK_CONCAT).
Proof.
  intros Hal.
  destruct (Tokenize_loop_spaced (range_runes regexp) [] Hal)
    as (ts & Hrun & Hsp & Hhead); [done..|].
  destruct (Tokenize_loop_alphabet (range_runes regexp) [] Hal)
    as (ts0 & Hrun0 & _); [done|].
  exists ts. split; [done|]. split; [|split].
  - intros l1 a b l2 Heq.
    pose proof (spaced_split ts l1 a b l2 Hsp Heq) as Hn.
    unfold neighbours, is_kind in Hn.
    destruct a as [[] ?], b as [[] ?]; simpl in *;
      first [discriminate Hn | intuition congruence].
  - intros t Ht. by rewrite Ht in Hhead.
  - intros t Ht. rewrite Hrun in Hrun0. injection Hrun0 as ->.
    rewrite last_snoc in Ht. by injection Ht as <-.
Qed.

Lemma Tokenize_places_Concat_witness :
  ∃ ts, Tokenize "ab*|cd" = Return ts
        ∧ (∀ l1 a b l2, ts = l1 ++ a :: b :: l2 →
             ¬ (token.Type' a = TK_SYMBOL ∧ token.Type' b = TK_SYMBOL)
             ∧ (token.Type' b = TK_CONCAT → token.Type' a = TK_SYMBOL)
             ∧ (token.Type' a = TK_CONCAT → token.Type' b = TK_SYMBOL))
        ∧ (∀ t, head ts = Some t → token.Type' t ≠ TK_CONCAT)
        ∧ (∀ t, last ts = Some t → token.Type' t ≠ TK_CONCAT).
Proof. apply (Tokenize_places_Concat "ab*|cd"). all_in_alphabet. Defined.

End tokens.

Section simulator_more.

Context (h : list State).

Lemma allocated_deref p s : deref h p = Ok s → allocated h p.
Proof.
  unfold deref. destruct p as [l|]; [|done].
  destruct (h !! l) as [s'|] eqn:Hl; [|done]. intros _. by exists l, s'.
Qed.

Lemma deref_not_allocated p : ¬ allocated h p → deref h p = Panic.
Proof.
  intros Hp. destruct (deref h p) as [s|] eqn:Hs; [|done].
  destruct Hp. by eapply allocated_deref.
Qed.

Lemma allocated_dec p : Decision (allocated h p).
Proof.
  unfold allocated. destruct p as [l|].
  - destruct (h !! l) as [s|] eqn:Hl; [left; by exists l, s|right].
    intros (l' & s & [= <-] & ?). congruence.
  - right. by intros (l' & s & ? & ?).
Qed.

Lemma keep_first_sublist {A} (key : A → Z) l : keep_first key l `sublist_of` l.
Proof.
  induction l as [|x l IH]; simpl; [done|].
  apply sublist_skip. etrans; [apply sublist_filter|done].
Qed.

Lemma keep_first_NoDup_id {A} (key : A → Z) l :
  NoDup (key <$> l) → keep_first key l = l.
Proof.
  induction l as [|x l IH]; simpl; [done|].
  rewrite NoDup_cons. intros [Hx Hl]. rewrite IH by done. f_equal.
  clear IH Hl. induction l as [|y l IHl]; [done|].
  rewrite fmap_cons, not_elem_of_cons in Hx. destruct Hx as [Hne Hx].
  rewrite filter_cons_True by congruence. f_equal. by apply IHl.
Qed.

Lemma removeDuplicate_loop_Ok states : ∀ dup_map newStates r,
  removeDuplicate_loop h dup_map newStates states = Ok r →
  Forall (allocated h) states.
Proof.
  induction states as [|p states IH]; intros dup_map newStates r; simpl; [done|].
  destruct (deref h p) as [s|] eqn:Hs; simpl; [|done].
  intros Hrun. constructor; [by eapply allocated_deref|].
  destruct (dup_map !! ID s); by eapply IH.
Qed.

(** X3: on states that can all be read, removeDuplicate returns a
    subsequence of its argument whose IDs are pairwise distinct and are all
    the IDs of the argument; applying it again changes nothing. *)
Theorem removeDuplicate_first_occurrences (states : list (option nat)) :
  Forall (allocated h) states →
  ∃ r, removeDuplicate h states = Ok r
       ∧ r `sublist_of` states
       ∧ NoDup (id_of h <$> r)
       ∧ (∀ p, p ∈ states → id_of h p ∈ id_of h <$> r)
       ∧ removeDuplicate h r = Ok r.
Proof.
  intros Hall. exists (keep_first (id_of h) states).
  split; [by apply removeDuplicate_spec|].
  split; [apply keep_first_sublist|].
  split; [apply keep_first_NoDup|].
  split; [intros p; apply keep_first_keys|].
  rewrite removeDuplicate_spec.
  - f_equal. apply keep_first_NoDup_id, keep_first_NoDup.
  - eapply Forall_forall. intros p Hp%keep_first_subseteq.
    by eapply Forall_forall in Hall.
Qed.

(** X4: removeDuplicate returns exactly when every state of its argument can
    be read; it panics exactly when one of them is nil. *)
Theorem removeDuplicate_returns_iff (states : list (option nat)) :
  ((∃ r, removeDuplicate h states = Ok r) ↔ Forall (allocated h) states)
  ∧ (removeDuplicate h states = Panic ↔ ∃ p, p ∈ states ∧ ¬ allocated h p).
Proof.
  assert (Hiff : (∃ r, removeDuplicate h states = Ok r) ↔ Forall (allocated h) states).
  { split.
    - intros [r Hr]. by eapply removeDuplicate_loop_Ok.
    - intros Hall. eexists. by apply removeDuplicate_spec. }
  split; [done|]. split.
  - intros Hpanic.
    assert (Hnot : ¬ Forall (allocated h) states).
    { intros Hall. apply Hiff in Hall as [r Hr]. congruence. }
    apply not_Forall_Exists in Hnot; [|apply allocated_dec].
    apply Exists_exists in Hnot as (p & Hp & Hnot). by exists p.
  - intros (p & Hp & Hnot).
    destruct (removeDuplicate h states) as [r|] eqn:Hr; [|done].
    destruct Hnot. assert (Hall : Forall (allocated h) states) by (apply Hiff; eauto).
    by eapply Forall_forall in Hall.
Qed.

Lemma contain_allocated (state : option nat) (states : list (option nat)) :
  allocated h state → Forall (allocated h) states →
  contain h state states
  = Ok (bool_decide (id_of h state ∈ id_of h <$> states)).
Proof.
  intros Hst Hall.
  destruct (deref_allocated h state Hst) as [st Hd].
  assert (Hid : id_of h state = ID st) by (unfold id_of; by rewrite Hd).
  induction Hall as [|p states Hp Hall IH]; simpl; [done|].
  destruct (deref_allocated h p Hp) as [s Hs]. rewrite Hs, Hd. simpl.
  assert (Hidp : id_of h p = ID s) by (unfold id_of; by rewrite Hs).
  destruct (Z.eqb_spec (ID s) (ID st)) as [Heq|Hne].
  - rewrite bool_decide_true; [done|].
    apply elem_of_cons. left. congruence.
  - rewrite IH. f_equal. apply bool_decide_ext.
    rewrite elem_of_cons. intuition congruence.
Qed.

(** X5: contain answers false on the empty list, whatever the state, even
    nil; on states that can be read it tells whether the ID of the state is
    the ID of a member of the list. *)
Theorem contain_by_ID (state : option nat) (states : list (option nat)) :
  contain h state [] = Ok false
  ∧ (allocated h state → Forall (allocated h) states →
     contain h state states
     = Ok (bool_decide (id_of h state ∈ id_of h <$> states))).
Proof. split; [done|apply contain_allocated]. Qed.

Lemma isInAcceptState_no_accepts (a : NFA) (states : list (option nat)) :
  AcceptStates a = [] → isInAcceptState h a states = Ok false.
Proof.
  intros Hnil. induction states as [|p states IH]; simpl; [done|].
  by rewrite Hnil.
Qed.

Lemma isInAcceptState_allocated (a : NFA) (states : list (option nat)) :
  Forall (allocated h) states → Forall (allocated h) (AcceptStates a) →
  ∃ b, isInAcceptState h a states = Ok b
       ∧ (b = true ↔ ∃ p q, p ∈ states ∧ q ∈ AcceptStates a
                            ∧ id_of h p = id_of h q).
Proof.
  intros Hall Hacc. induction Hall as [|p states Hp Hall IH]; simpl.
  - exists false. split; [done|]. split; [done|].
    by intros (p & q & ?%elem_of_nil & _).
  - rewrite contain_allocated by done. simpl.
    case_bool_decide as Hin.
    + exists true. split; [done|]. split; [|done]. intros _.
      apply list_elem_of_fmap in Hin as (q & Hq & Hin).
      exists p, q. split; [left|done].
    + destruct IH as (b & -> & Hb). exists b. split; [done|].
      rewrite Hb. split.
      * intros (p' & q & Hp' & Hq & Heq). exists p', q. split; [by right|done].
      * intros (p' & q & [->|Hp']%elem_of_cons & Hq & Heq).
        -- destruct Hin. rewrite Heq. by apply list_elem_of_fmap_2.
        -- by exists p', q.
Qed.

(** X6: isInAcceptState answers false when the automaton has no accept
    state, whatever the states, even nil; on states that can be read it
    answers true exactly when one of the states has the ID of an accept
    state. *)
Theorem isInAcceptState_by_ID (a : NFA) (states : list (option nat)) :
  (AcceptStates a = [] → isInAcceptState h a states = Ok false)
  ∧ (Forall (allocated h) states → Forall (allocated h) (AcceptStates a) →
     ∃ b, isInAcceptState h a states = Ok b
          ∧ (b = true ↔ ∃ p q, p ∈ states ∧ q ∈ AcceptStates a
                               ∧ id_of h p = id_of h q)).
Proof.
  split; [apply isInAcceptState_no_accepts|apply isInAcceptState_allocated].
Qed.


Lemma adaptEpsilonTransition_loop_no_epsilon states : ∀ nextStates,
  containStateOfEpsilonTransitive h states = Ok false →
  adaptEpsilonTransition_loop h nextStates states = Ok (nextStates ++ states).
Proof.
  induction states as [|p states IH]; intros nextStates; simpl.
  - by rewrite app_nil_r.
  - destruct (deref h p) as [s|]; simpl; [|done].
    destruct (Nexts s !! epsilon); [done|].
    intros Hrest. rewrite IH by done. by rewrite <- app_assoc.
Qed.

Lemma containStateOfEpsilonTransitive_allocated (states : list (option nat)) :
  Forall (allocated h) states →
  ∃ b, containStateOfEpsilonTransitive h states = Ok b
       ∧ (b = true ↔ ∃ p s, p ∈ states ∧ deref h p = Ok s
                            ∧ is_Some (Nexts s !! epsilon)).
Proof.
  induction 1 as [|p states Hp Hall IH]; simpl.
  - exists false. split; [done|]. split; [done|].
    by intros (p & s & ?%elem_of_nil & _).
  - destruct (deref_allocated h p Hp) as [s Hs]. rewrite Hs. simpl.
    destruct (Nexts s !! epsilon) as [ps|] eqn:Hps.
    + exists true. split; [done|]. split; [|done]. intros _.
      exists p, s. split; [left|]. split; [done|]. by rewrite Hps.
    + destruct IH as (b & -> & Hb). exists b. split; [done|]. rewrite Hb. split.
      * intros (q & s' & Hq & Hd & Hk). exists q, s'. split; [by right|done].
      * intros (q & s' & [->|Hq]%elem_of_cons & Hd & Hk).
        -- rewrite Hs in Hd. injection Hd as <-. rewrite Hps in Hk.
           by destruct Hk.
        -- by exists q, s'.
Qed.

(** X7: on states that can all be read, containStateOfEpsilonTransitive
    tells whether one of them has an entry for ε in its transition map; and
    when it answers false, adaptEpsilonTransition does what removeDuplicate
    does. *)
Theorem adaptEpsilonTransition_without_epsilon (states : list (option nat)) :
  (Forall (allocated h) states →
   ∃ b, containStateOfEpsilonTransitive h states = Ok b
        ∧ (b = true ↔ ∃ p s, p ∈ states ∧ deref h p = Ok s
                             ∧ is_Some (Nexts s !! epsilon)))
  ∧ (containStateOfEpsilonTransitive h states = Ok false →
     adaptEpsilonTransition h states = removeDuplicate h states).
Proof.
  split; [apply containStateOfEpsilonTransitive_allocated|].
  intros Hno. unfold adaptEpsilonTransition.
  by rewrite adaptEpsilonTransition_loop_no_epsilon.
Qed.

(** X8: the IDs in the result of adaptEpsilonTransition are exactly the IDs
    of the input states and of their direct ε-successors; hence, when the
    IDs of the direct ε-successors are already IDs of input states, the
    result has the same IDs as the input. *)
Theorem adaptEpsilonTransition_IDs (states : list (option nat)) :
  Forall (allocated h) states →
  (∀ p, p ∈ states → Forall (allocated h) (epsilon_successors h p)) →
  ∃ r, adaptEpsilonTransition h states = Ok r
       ∧ (∀ i, i ∈ id_of h <$> r ↔
            ∃ p, p ∈ states
                 ∧ (i = id_of h p
                    ∨ ∃ q, q ∈ epsilon_successors h p ∧ i = id_of h q))
       ∧ ((∀ p q, p ∈ states → q ∈ epsilon_successors h p →
             id_of h q ∈ id_of h <$> states) →
          ∀ i, i ∈ id_of h <$> r ↔ i ∈ id_of h <$> states).
Proof.
  intros Hall Hsucc.
  assert (Hpass : Forall (allocated h) (one_pass h states)).
  { apply Forall_forall. intros q [Hq|(p & Hp & Hq)]%one_pass_elem.
    - by eapply Forall_forall in Hall.
    - specialize (Hsucc p Hp). by eapply Forall_forall in Hsucc. }
  exists (keep_first (id_of h) (one_pass h states)).
  assert (Hids : ∀ i, i ∈ id_of h <$> keep_first (id_of h) (one_pass h states) ↔
            ∃ p, p ∈ states
                 ∧ (i = id_of h p
                    ∨ ∃ q, q ∈ epsilon_successors h p ∧ i = id_of h q)).
  { intros i. split.
    - intros (q & -> & Hq%keep_first_subseteq)%list_elem_of_fmap.
      apply one_pass_elem in Hq as [Hq|(p & Hp & Hq)].
      + exists q. auto.
      + exists p. split; [done|]. right. by exists q.
    - intros (p & Hp & [->|(q & Hq & ->)]); apply keep_first_keys, one_pass_elem.
      + by left.
      + right. by exists p. }
  split; [|split; [done|]].
  - unfold adaptEpsilonTransition.
    rewrite adaptEpsilonTransition_loop_spec by done. simpl.
    by apply removeDuplicate_spec.
  - intros Hclosed i. rewrite Hids. split.
    + intros (p & Hp & [->|(q & Hq & ->)]).
      * by apply list_elem_of_fmap_2.
      * by eapply Hclosed.
    + intros (p & -> & Hp)%list_elem_of_fmap. exists p. auto.
Qed.

Lemma adaptEpsilonTransition_nil : adaptEpsilonTransition h [] = Ok [].
Proof. reflexivity. Qed.

Lemma Accept_loop_app str1 : ∀ str2 cur,
  Accept_loop h cur (str1 ++ str2)
  = Accept_loop h cur str1 ≫= λ cur', Accept_loop h cur' str2.
Proof.
  induction str1 as [|c str1 IH]; intros str2 cur; [done|].
  simpl. destruct (adaptEpsilonTransition h cur) as [c1|]; simpl; [|done].
  destruct (Accept_move h c [] c1) as [c2|]; simpl; [|done].
  destruct (removeDuplicate h c2) as [c3|]; simpl; [|done].
  destruct (adaptEpsilonTransition h c3) as [c4|]; simpl; [|done].
  apply IH.
Qed.

Lemma Accept_loop_dead str : Accept_loop h [] str = Ok [].
Proof. induction str as [|c str IH]; [done|]. simpl. apply IH. Qed.


End simulator_more.

Section moves.
Context (h : list State).

Lemma Accept_move_allocated_spec c cur : ∀ nextStates,
  Forall (allocated h) cur →
  Accept_move h c nextStates cur
  = Ok (nextStates ++ flat_map (successors_on h c) cur).
Proof.
  induction cur as [|p cur IH]; intros nextStates Hcur; simpl.
  - by rewrite app_nil_r.
  - apply Forall_cons in Hcur as [Hp Hcur].
    destruct (deref_allocated h p Hp) as [s Hs].
    unfold successors_on at 1. rewrite Hs. simpl.
    destruct (Nexts s !! c) as [next|]; simpl; rewrite IH by done.
    + by rewrite <- app_assoc.
    + done.
Qed.

(** X9: reading a character c, the simulator collects, state by state, the
    direct successors on c of the current states. The character U+03B5 is
    not set apart: reading it follows the ε-transitions, so that the
    automata of Star(Symbol a), Concat(Symbol a, Symbol b) and
    Union(Symbol a, Symbol b) accept subjects with that character in
    them. *)
Theorem Accept_move_on :
  (∀ c (cur : list (option nat)),
     Forall (allocated h) cur →
     Accept_move h c [] cur = Ok (flat_map (successors_on h c) cur))
  ∧ (∀ cur : list (option nat),
       Forall (allocated h) cur →
       Accept_move h epsilon [] cur = Ok (flat_map (epsilon_successors h) cur))
  ∧ compile_and_accept (Star (Symbol "a")) "εa" = Ok true
  ∧ compile_and_accept (Concat (Symbol "a") (Symbol "b")) "aεb" = Ok true
  ∧ compile_and_accept (Union (Symbol "a") (Symbol "b")) "εa" = Ok true.
Proof.
  split; [|split; [|repeat split; vm_compute; reflexivity]];
    intros; by apply Accept_move_allocated_spec.
Qed.

(** X10: when no state is left after the characters of a non-empty prefix of
    the subject have been read, Accept rejects the subject, whatever
    follows the prefix. *)
Theorem Accept_rejects_after_dead_prefix (a : NFA) (str : string) cur0 s1 s2 :
  adaptEpsilonTransition h [StartState a] = Ok cur0 →
  range_runes str = s1 ++ s2 → s1 ≠ [] →
  Accept_loop h cur0 s1 = Ok [] →
  Accept h a str = Ok false.
Proof.
  intros Hstart Hsplit Hne Hdead. unfold Accept. rewrite Hstart. simpl.
  destruct (Nat.eqb_spec (String.length str) 0) as [Hlen|Hlen].
  - destruct str; [|done]. by destruct s1.
  - rewrite Hsplit, Accept_loop_app, Hdead. simpl.
    by rewrite Accept_loop_dead.
Qed.

End moves.

Section closed_store.

Lemma allocated_lt (h : list State) p :
  allocated h p ↔ ∃ l, p = Some l ∧ (l < length h)%nat.
Proof.
  split.
  - intros (l & s & -> & Hl). exists l. split; [done|]. by eapply lookup_lt_Some.
  - intros (l & -> & Hl). destruct (lookup_lt_is_Some_2 h l Hl) as [s Hs].
    by exists l, s.
Qed.

Lemma allocated_le (h h' : list State) p :
  (length h ≤ length h')%nat → allocated h p → allocated h' p.
Proof.
  rewrite !allocated_lt. intros Hle (l & -> & Hl). exists l. split; [done|lia].
Qed.

Lemma closed_snoc (h : list State) s :
  closed h →
  (∀ k ps p, Nexts s !! k = Some ps → p ∈ ps → allocated (h ++ [s]) p) →
  closed (h ++ [s]).
Proof.
  intros Hc Hs l s' k ps p Hl Hk Hp.
  destruct (decide (l < length h)%nat) as [Hlt|Hge].
  - rewrite lookup_app_l in Hl by done.
    apply (allocated_le h); [rewrite length_app; lia|by eapply Hc].
  - assert (l = length h) as ->.
    { apply lookup_lt_Some in Hl. rewrite length_app in Hl. simpl in Hl. lia. }
    rewrite list_lookup_middle in Hl by done. injection Hl as <-. by eapply Hs.
Qed.

Lemma closed_setNexts (h : list State) l s k v :
  closed h → h !! l = Some s → (∀ p, p ∈ v → allocated h p) →
  closed (<[l := {| ID := ID s; Nexts := <[k := v]> (Nexts s) |}]> h).
Proof.
  intros Hc Hl Hv l' s' k' ps p Hl' Hk' Hp.
  apply (allocated_le h); [by rewrite length_insert|].
  destruct (decide (l = l')) as [<-|Hne].
  - rewrite list_lookup_insert_eq in Hl' by by eapply lookup_lt_Some.
    injection Hl' as <-. simpl in Hk'.
    destruct (decide (k = k')) as [<-|Hk].
    + rewrite lookup_insert_eq in Hk'. injection Hk' as <-. by apply Hv.
    + rewrite lookup_insert_ne in Hk' by done. by eapply Hc.
  - rewrite list_lookup_insert_ne in Hl' by done. by eapply Hc.
Qed.

Lemma appendEpsilon_closed target accepts : ∀ g (h : list State) g' h',
  closed h → allocated h target →
  appendEpsilon target accepts (g, h) = (Ok (), (g', h')) →
  closed h' ∧ length h' = length h.
Proof.
  induction accepts as [|p accepts IH]; intros g h g' h' Hc Ht; simpl.
  - by intros [= <- <-].
  - unfold mbind at 1, ST_bind at 1.
    unfold getNexts at 1. simpl.
    destruct (deref h p) as [s|] eqn:Hs; simpl; [|done].
    unfold mbind at 1, ST_bind at 1. unfold setNexts at 1.
    unfold deref in Hs. destruct p as [l|]; [|done].
    destruct (h !! l) as [s'|] eqn:Hl; [|done]. injection Hs as ->.
    intros Hrun. apply IH in Hrun as [Hc' Hlen].
    + split; [done|]. by rewrite Hlen, length_insert.
    + apply closed_setNexts; [done..|].
      intros q [Hq| ->%list_elem_of_singleton]%elem_of_app; [|done].
      destruct (Nexts s !! epsilon) as [ps|] eqn:Hps; simpl in Hq.
      * by eapply Hc.
      * by apply elem_of_nil in Hq.
    + apply (allocated_le h); [by rewrite length_insert|done].
Qed.


Lemma closed_newState (h : list State) id : closed h → closed (h ++ [mkState id ∅]).
Proof. intros Hc. apply closed_snoc; [done|]. intros k ps p Hk. by simpl in Hk. Qed.

Lemma fragment_start_allocated g h n a g' h' :
  grown g h n g' h' → fragment h n a h' → allocated h' (StartState a).
Proof.
  intros [_ Hlen _ _] F. destruct (fragment_invariant _ _ _ _ F) as [Hstart _].
  destruct (fragment_states_bounds _ _ _ _ _ F Hstart) as (l & -> & Hl).
  apply allocated_lt. exists l. split; [done|lia].
Qed.

Lemma genSymbolNFA_closed symbol g (h : list State) a g' h' :
  closed h → genSymbolNFA symbol (g, h) = (Ok a, (g', h')) →
  closed h' ∧ AcceptStates a ≠ [].
Proof.
  intros Hc. unfold genSymbolNFA.
  set (s0 := {| ID := StateCount g; Nexts := ∅ |}).
  set (s1 := {| ID := int_wrap (StateCount g + 1); Nexts := ∅ |}).
  assert (Hlook : ((h ++ [s0]) ++ [s1]) !! length h = Some s0).
  { rewrite <- app_assoc. by apply list_lookup_middle. }
  erewrite ST_bind_Ok by apply newState_eq.
  erewrite ST_bind_Ok by apply newState_eq.
  erewrite ST_bind_Ok by (by eapply getNexts_eq).
  erewrite ST_bind_Ok by (by eapply setNexts_eq).
  intros [= <- _ <-]. split; [|done].
  apply (closed_setNexts ((h ++ [s0]) ++ [s1]) (length h) s0 symbol);
    [by do 2 apply closed_newState|done|].
  intros p [Hp| ->%list_elem_of_singleton]%elem_of_app.
  - simpl in Hp. by apply elem_of_nil in Hp.
  - apply allocated_lt. eexists. split; [done|]. rewrite !length_app. simpl. lia.
Qed.

Lemma genUnionNFA_closed l r g (h : list State) a g' h' :
  closed h → allocated h (StartState l) → allocated h (StartState r) →
  AcceptStates l ≠ [] →
  genUnionNFA (Some l) (Some r) (g, h) = (Ok a, (g', h')) →
  closed h' ∧ AcceptStates a ≠ [].
Proof.
  intros Hc Hl Hr Hne. unfold genUnionNFA.
  erewrite ST_bind_Ok by apply newState_eq.
  erewrite ST_bind_Ok by reflexivity.
  erewrite ST_bind_Ok by reflexivity.
  erewrite ST_bind_Ok
    by (eapply setNexts_eq; [done|by apply list_lookup_middle]).
  intros [= <- _ <-]. split.
  - apply (closed_setNexts _ (length h) (mkState (StateCount g) ∅) epsilon);
      [by apply closed_newState|by apply list_lookup_middle|].
    intros p Hp. apply (allocated_le h); [rewrite length_app; lia|].
    apply elem_of_cons in Hp as [->|Hp]; [done|].
    by apply list_elem_of_singleton in Hp as ->.
  - simpl. by destruct (AcceptStates l).
Qed.

Lemma genConcateNFA_closed l r g (h : list State) a g' h' :
  closed h → allocated h (StartState r) → AcceptStates r ≠ [] →
  genConcateNFA (Some l) (Some r) (g, h) = (Ok a, (g', h')) →
  closed h' ∧ AcceptStates a ≠ [].
Proof.
  intros Hc Hr Hne. unfold genConcateNFA.
  erewrite ST_bind_Ok by reflexivity.
  erewrite ST_bind_Ok by reflexivity.
  unfold mbind, ST_bind.
  destruct (appendEpsilon _ _ (g, h)) as [[[]|] [g1 h1]] eqn:Hrun; [|done].
  intros [= <- <- <-]. split; [|done].
  by apply appendEpsilon_closed in Hrun as [? _].
Qed.

Lemma genStarNFA_closed o g (h : list State) a g' h' :
  closed h → allocated h (StartState o) →
  genStarNFA (Some o) (g, h) = (Ok a, (g', h')) →
  closed h' ∧ AcceptStates a ≠ [].
Proof.
  intros Hc Ho. unfold genStarNFA.
  erewrite ST_bind_Ok by apply newState_eq.
  erewrite ST_bind_Ok by reflexivity.
  erewrite ST_bind_Ok
    by (eapply setNexts_eq; [done|by apply list_lookup_middle]).
  unfold mbind, ST_bind.
  destruct (appendEpsilon _ _ _) as [[[]|] [g1 h1]] eqn:Hrun; [|done].
  intros [= <- <- <-]. split; [|simpl; by destruct (AcceptStates o)].
  apply appendEpsilon_closed in Hrun as [? _]; [done| |].
  - apply (closed_setNexts _ (length h) (mkState (StateCount g) ∅) epsilon);
      [by apply closed_newState|by apply list_lookup_middle|].
    intros p ->%list_elem_of_singleton.
    apply (allocated_le h); [rewrite length_app; lia|done].
  - apply (allocated_le h); [|done]. rewrite length_insert, length_app. lia.
Qed.

(** The generator keeps the store closed, and its fragments have an accept
    state. *)
Lemma gen_closed node : ∀ g (h : list State),
  well_formed node = true → closed h →
  ∃ a g' h', gen node (g, h) = (Ok (Some a), (g', h'))
             ∧ grown g h (expected_states node) g' h'
             ∧ fragment h (expected_states node) a h'
             ∧ closed h' ∧ AcceptStates a ≠ [].
Proof.
  induction node as [ty value lhs rhs IHl IHr] using Node_tree_ind.
  intros g h Hwf Hc. destruct ty; simpl in Hwf.
  - destruct (genSymbolNFA_generated value g h) as (a & g' & h' & Hrun & G & F).
    destruct (genSymbolNFA_closed _ _ _ _ _ _ Hc Hrun).
    exists a, g', h'. split; [|done].
    simpl. by erewrite ST_bind_Ok by exact Hrun.
  - destruct lhs as [l|], rhs as [r|]; try done.
    apply andb_true_iff in Hwf as [Hwl Hwr]. simpl in IHl, IHr.
    destruct (IHl g h Hwl Hc) as (a1 & g1 & h1 & Hrun1 & G1 & F1 & C1 & N1).
    destruct (IHr g1 h1 Hwr C1) as (a2 & g2 & h2 & Hrun2 & G2 & F2 & C2 & N2).
    destruct (genUnionNFA_generated _ _ _ _ _ _ _ _ _ _ G1 F1 G2 F2)
      as (a & g' & h' & Hrun & G & F).
    assert (Hs1 : allocated h2 (StartState a1)).
    { apply (allocated_le h1); [rewrite (grown_length _ _ _ _ _ G2); lia|].
      by eapply fragment_start_allocated. }
    assert (Hs2 : allocated h2 (StartState a2))
      by by eapply fragment_start_allocated.
    destruct (genUnionNFA_closed _ _ _ _ _ _ _ C2 Hs1 Hs2 N1 Hrun).
    exists a, g', h'. rewrite expected_states_union. split; [|done].
    simpl. erewrite ST_bind_Ok by exact Hrun1.
    erewrite ST_bind_Ok by exact Hrun2.
    by erewrite ST_bind_Ok by exact Hrun.
  - destruct lhs as [l|], rhs as [r|]; try done.
    apply andb_true_iff in Hwf as [Hwl Hwr]. simpl in IHl, IHr.
    destruct (IHl g h Hwl Hc) as (a1 & g1 & h1 & Hrun1 & G1 & F1 & C1 & N1).
    destruct (IHr g1 h1 Hwr C1) as (a2 & g2 & h2 & Hrun2 & G2 & F2 & C2 & N2).
    destruct (genConcateNFA_generated _ _ _ _ _ _ _ _ _ _ G1 F1 G2 F2)
      as (a & g' & h' & Hrun & G & F).
    assert (Hs2 : allocated h2 (StartState a2))
      by by eapply fragment_start_allocated.
    destruct (genConcateNFA_closed _ _ _ _ _ _ _ C2 Hs2 N2 Hrun).
    exists a, g', h'. rewrite expected_states_concat. split; [|done].
    simpl. erewrite ST_bind_Ok by exact Hrun1.
    erewrite ST_bind_Ok by exact Hrun2.
    by erewrite ST_bind_Ok by exact Hrun.
  - destruct lhs as [l|]; [|done]. simpl in IHl.
    destruct (IHl g h Hwf Hc) as (a1 & g1 & h1 & Hrun1 & G1 & F1 & C1 & N1).
    destruct (genStarNFA_generated _ _ _ _ _ _ G1 F1)
      as (a & g' & h' & Hrun & G & F).
    assert (Hs1 : allocated h1 (StartState a1))
      by by eapply fragment_start_allocated.
    destruct (genStarNFA_closed _ _ _ _ _ _ C1 Hs1 Hrun).
    exists a, g', h'. rewrite expected_states_star. split; [|done].
    simpl. erewrite ST_bind_Ok by exact Hrun1.
    by erewrite ST_bind_Ok by exact Hrun.
  - done.
Qed.

End closed_store.

Section no_panic.

Context (h : list State) (Hclosed : closed h).

Lemma epsilon_successors_allocated p :
  allocated h p → Forall (allocated h) (epsilon_successors h p).
Proof.
  intros (l & s & -> & Hl). unfold epsilon_successors. simpl. rewrite Hl.
  destruct (Nexts s !! epsilon) as [ps|] eqn:Hps; simpl; [|done].
  apply Forall_forall. intros q Hq. by eapply Hclosed.
Qed.

Lemma adaptEpsilonTransition_allocated states :
  Forall (allocated h) states →
  ∃ r, adaptEpsilonTransition h states = Ok r ∧ Forall (allocated h) r.
Proof.
  intros Hall.
  assert (Hpass : Forall (allocated h) (one_pass h states)).
  { apply Forall_forall. intros q [Hq|(p & Hp & Hq)]%one_pass_elem.
    - by eapply Forall_forall in Hall.
    - eapply Forall_forall in Hall; [|done].
      apply epsilon_successors_allocated in Hall. by eapply Forall_forall in Hall. }
  exists (keep_first (id_of h) (one_pass h states)). split.
  - unfold adaptEpsilonTransition.
    rewrite adaptEpsilonTransition_loop_spec by done. simpl.
    by apply removeDuplicate_spec.
  - apply Forall_forall. intros q Hq%keep_first_subseteq.
    by eapply Forall_forall in Hpass.
Qed.

Lemma Accept_move_allocated c cur : ∀ nextStates,
  Forall (allocated h) cur → Forall (allocated h) nextStates →
  ∃ r, Accept_move h c nextStates cur = Ok r ∧ Forall (allocated h) r.
Proof.
  induction cur as [|p cur IH]; intros nextStates Hcur Hnext; simpl.
  - by exists nextStates.
  - apply Forall_cons in Hcur as [Hp Hcur].
    destruct Hp as (l & s & -> & Hl). simpl. rewrite Hl. simpl.
    destruct (Nexts s !! c) as [next|] eqn:Hc; [|by apply IH].
    apply IH; [done|]. apply Forall_app. split; [done|].
    apply Forall_forall. intros q Hq. by eapply Hclosed.
Qed.

Lemma removeDuplicate_allocated states :
  Forall (allocated h) states →
  ∃ r, removeDuplicate h states = Ok r ∧ Forall (allocated h) r.
Proof.
  intros Hall. exists (keep_first (id_of h) states).
  split; [by apply removeDuplicate_spec|].
  apply Forall_forall. intros q Hq%keep_first_subseteq.
  by eapply Forall_forall in Hall.
Qed.

Lemma Accept_loop_allocated str : ∀ cur,
  Forall (allocated h) cur →
  ∃ r, Accept_loop h cur str = Ok r ∧ Forall (allocated h) r.
Proof.
  induction str as [|c str IH]; intros cur Hcur; simpl.
  - by exists cur.
  - destruct (adaptEpsilonTransition_allocated cur Hcur) as (c1 & -> & H1). simpl.
    destruct (Accept_move_allocated c c1 [] H1) as (c2 & -> & H2); [done|]. simpl.
    destruct (removeDuplicate_allocated c2 H2) as (c3 & -> & H3). simpl.
    destruct (adaptEpsilonTransition_allocated c3 H3) as (c4 & -> & H4). simpl.
    by apply IH.
Qed.

Lemma Accept_allocated a str :
  allocated h (StartState a) → Forall (allocated h) (AcceptStates a) →
  ∃ b, Accept h a str = Ok b.
Proof.
  intros Hstart Hacc. unfold Accept.
  destruct (adaptEpsilonTransition_allocated [StartState a]) as (c0 & -> & H0).
  { by constructor. }
  simpl. destruct (String.length str =? 0)%nat.
  - destruct (isInAcceptState_allocated h a c0 H0 Hacc) as (b & -> & _). by exists b.
  - destruct (Accept_loop_allocated (range_runes str) c0 H0) as (c1 & -> & H1). simpl.
    destruct (isInAcceptState_allocated h a c1 H1 Hacc) as (b & -> & _). by exists b.
Qed.


Lemma DumpDOT_accepts_allocated accepts : ∀ out,
  Forall (allocated h) accepts →
  ∃ out', DumpDOT_accepts h accepts out = (Ok (), out').
Proof.
  induction accepts as [|p accepts IH]; intros out Hacc; simpl.
  - by exists out.
  - apply Forall_cons in Hacc as [(l & s & -> & Hl) Hacc].
    unfold mbind, ST_bind, lift, fmt_Print. simpl. rewrite Hl. by apply IH.
Qed.

Lemma DumpDOT_dsts_allocated src symbol dsts : ∀ out,
  allocated h src → Forall (allocated h) dsts →
  ∃ out', DumpDOT_dsts h src symbol dsts out = (Ok (), out').
Proof.
  intros out (l & s & -> & Hl). revert out.
  induction dsts as [|d dsts IH]; intros out Hd; simpl.
  - by exists out.
  - apply Forall_cons in Hd as [(l' & s' & -> & Hl') Hd].
    unfold mbind, ST_bind, lift, fmt_Print. simpl. rewrite Hl, Hl'. by apply IH.
Qed.

Lemma DumpDOT_symbols_allocated src entries : ∀ out,
  allocated h src → Forall (λ e, Forall (allocated h) e.2) entries →
  ∃ out', DumpDOT_symbols h src entries out = (Ok (), out').
Proof.
  intros out Hsrc. revert out.
  induction entries as [|[k ps] entries IH]; intros out He; simpl.
  - by exists out.
  - apply Forall_cons in He as [Hps He]. simpl in Hps.
    destruct (DumpDOT_dsts_allocated src k ps out Hsrc Hps) as (out1 & Hout1).
    unfold mbind, ST_bind. rewrite Hout1. by apply IH.
Qed.

Lemma DumpDOT_states_allocated order states : ∀ i out,
  range_order order → Forall (allocated h) states →
  ∃ out', DumpDOT_states h order i states out = (Ok (), out').
Proof.
  intros i out Hord. revert i out.
  induction states as [|p states IH]; intros i out Hst; simpl.
  - by exists out.
  - apply Forall_cons in Hst as [Hp Hst].
    pose proof Hp as (l & s & -> & Hl).
    unfold mbind, ST_bind, lift. simpl. rewrite Hl.
    destruct (DumpDOT_symbols_allocated (Some l) (order i (Nexts s)) out Hp)
      as (out1 & ->).
    + apply Forall_forall. intros [k ps] He. simpl.
      rewrite (Hord i (Nexts s)) in He. apply elem_of_map_to_list in He.
      apply Forall_forall. intros q Hq. by eapply Hclosed.
    + by apply IH.
Qed.

Lemma DumpDOT_allocated order a out :
  range_order order →
  allocated h (StartState a) → Forall (allocated h) (AcceptStates a) →
  Forall (allocated h) (States a) →
  ∃ out', DumpDOT h order a out = (Ok (), out').
Proof.
  intros Hord (l & s & Hstart & Hl) Hacc Hst.
  unfold DumpDOT, mbind, ST_bind, lift, fmt_Print. rewrite Hstart. simpl. rewrite Hl.
  edestruct (DumpDOT_accepts_allocated (AcceptStates a)) as (out1 & ->); [done|].
  edestruct (DumpDOT_states_allocated order (States a)) as (out2 & ->); [done..|].
  by eexists.
Qed.

End no_panic.

Section compiled.

Lemma closed_nil : closed [].
Proof. by intros l s k ps p Hl. Qed.

(** What is known of the automaton and the store that CreateNFA returns. *)
Lemma CreateNFA_closed node :
  well_formed node = true →
  ∃ a g' h', CreateNFA node = (Ok (Some a), (g', h'))
             ∧ closed h'
             ∧ (∀ p, p ∈ States a ↔ allocated h' p)
             ∧ allocated h' (StartState a)
             ∧ Forall (allocated h') (AcceptStates a)
             ∧ AcceptStates a ≠ [].
Proof.
  intros Hwf.
  destruct (gen_closed node newGenerator [] Hwf closed_nil)
    as (a & g' & h' & Hrun & G & F & C & N).
  exists a, g', h'. split; [done|]. split; [done|].
  assert (Hst : ∀ p, p ∈ States a ↔ allocated h' p).
  { intros p. rewrite (fragment_states _ _ _ _ F), allocated_lt.
    rewrite (grown_length _ _ _ _ _ G). simpl. split.
    - intros (l & -> & Hl%elem_of_seq)%list_elem_of_fmap. exists l. split; [done|lia].
    - intros (l & -> & Hl). apply list_elem_of_fmap_2, elem_of_seq. lia. }
  split; [done|].
  destruct (fragment_invariant _ _ _ _ F) as [Hstart Hacc].
  split; [by apply Hst|]. split; [|done].
  apply Forall_forall. intros p Hp. by apply Hst, Hacc.
Qed.

(** X14: on a store in which every destination of every transition is a
    state of the store, Accept returns an answer for every subject, without
    a nil dereference, provided the start state and the accept states are
    states of the store; this is the case of the automaton and the store
    that CreateNFA returns for any AST. *)
Theorem Accept_never_panics :
  (∀ (h : list State) a str,
     closed h → allocated h (StartState a) →
     Forall (allocated h) (AcceptStates a) →
     ∃ b, Accept h a str = Ok b)
  ∧ (∀ node, well_formed node = true →
       ∃ a g' h', CreateNFA node = (Ok (Some a), (g', h'))
                  ∧ ∀ str, ∃ b, Accept h' a str = Ok b).
Proof.
  split.
  - intros h a str Hc Hs Ha. by apply Accept_allocated.
  - intros node Hwf.
    destruct (CreateNFA_closed node Hwf) as (a & g' & h' & Hrun & C & _ & Hs & Ha & _).
    exists a, g', h'. split; [done|]. intros str. by apply Accept_allocated.
Qed.

(** X15: on such a store DumpDOT runs to its end without a nil dereference,
    whatever the order in which map entries are enumerated, provided the
    start state, the accept states and the states of the automaton are
    states of the store; this is the case of the automaton and the store
    that CreateNFA returns for any AST. *)
Theorem DumpDOT_never_panics :
  (∀ (h : list State) order a out,
     closed h → range_order order → allocated h (StartState a) →
     Forall (allocated h) (AcceptStates a) → Forall (allocated h) (States a) →
     ∃ out', DumpDOT h order a out = (Ok (), out'))
  ∧ (∀ node, well_formed node = true →
       ∃ a g' h', CreateNFA node = (Ok (Some a), (g', h'))
                  ∧ ∀ order out, range_order order →
                      ∃ out', DumpDOT h' order a out = (Ok (), out')).
Proof.
  split.
  - intros h order a out Hc Hord Hs Ha Hst. by apply DumpDOT_allocated.
  - intros node Hwf.
    destruct (CreateNFA_closed node Hwf)
      as (a & g' & h' & Hrun & C & Hst & Hs & Ha & _).
    exists a, g', h'. split; [done|]. intros order out Hord.
    apply DumpDOT_allocated; [done..|].
    apply Forall_forall. intros p. apply Hst.
Qed.

(** X13: for every AST the States list of the automaton that CreateNFA
    returns has no repetition and holds exactly the states of the store;
    every destination of a transition of one of its states is again one of
    its states; and it has at least one accept state. *)
Theorem CreateNFA_self_contained node :
  well_formed node = true →
  ∃ a g' h', CreateNFA node = (Ok (Some a), (g', h'))
             ∧ NoDup (States a)
             ∧ (∀ p, p ∈ States a ↔ allocated h' p)
             ∧ (∀ p s k ps q, p ∈ States a → deref h' p = Ok s →
                  Nexts s !! k = Some ps → q ∈ ps → q ∈ States a)
             ∧ AcceptStates a ≠ [].
Proof.
  intros Hwf.
  destruct (CreateNFA_closed node Hwf)
    as (a & g' & h' & Hrun & C & Hst & Hs & Ha & N).
  destruct (CreateNFA_generated node Hwf) as (a0 & g0 & h0 & Hrun0 & _ & F).
  rewrite Hrun in Hrun0. injection Hrun0 as <- <- <-.
  exists a, g', h'. split; [done|]. split; [|split; [done|split; [|done]]].
  - rewrite (fragment_states _ _ _ _ F).
    apply NoDup_fmap; [apply _|apply NoDup_seq].
  - intros p s k ps q Hp Hd Hk Hq. apply Hst.
    unfold deref in Hd. destruct p as [l|]; [|done].
    destruct (h' !! l) as [s'|] eqn:Hl; [|done]. injection Hd as ->.
    by eapply C.
Qed.

(** X11: on an AST, from any generator and store, gen leaves the states that
    were in the store as they were: the store it returns is the old one
    followed by the new states, as many as the AST calls for, and the states
    of the returned fragment are exactly the new ones. *)
Theorem gen_only_appends node g (h : list State) :
  well_formed node = true →
  ∃ a g' new, gen node (g, h) = (Ok (Some a), (g', h ++ new))
              ∧ length new = expected_states node
              ∧ States a ≡ₚ Some <$> seq (length h) (length new).
Proof.
  intros Hwf.
  destruct (gen_generated node g h Hwf) as (a & g' & h' & Hrun & G & F).
  destruct G as [_ Hlen Hframe _].
  exists a, g', (drop (length h) h').
  assert (Hh' : h' = h ++ drop (length h) h').
  { rewrite <- (take_drop (length h) h') at 1. f_equal.
    apply list_eq. intros i. destruct (decide (i < length h)%nat) as [Hi|Hi].
    - rewrite lookup_take_lt by done. by apply Hframe.
    - rewrite lookup_take_ge by lia. symmetry. apply lookup_ge_None_2. lia. }
  assert (Hnew : length (drop (length h) h') = expected_states node).
  { rewrite length_drop. lia. }
  split; [by rewrite <- Hh'|]. split; [done|].
  rewrite Hnew. by destruct F.
Qed.

End compiled.

Section malformed.

Lemma genUnionNFA_nil_l r st : ∃ st', genUnionNFA None r st = (Panic, st').
Proof. destruct st as [g h]. by eexists. Qed.

Lemma genUnionNFA_nil_r l st : ∃ st', genUnionNFA l None st = (Panic, st').
Proof. destruct st as [g h], l; by eexists. Qed.

Lemma genConcateNFA_nil_l r st : ∃ st', genConcateNFA None r st = (Panic, st').
Proof. by eexists. Qed.

Lemma genConcateNFA_nil_r l st : ∃ st', genConcateNFA l None st = (Panic, st').
Proof. destruct l; by eexists. Qed.

Lemma genStarNFA_nil st : ∃ st', genStarNFA None st = (Panic, st').
Proof. destruct st as [g h]. by eexists. Qed.

Lemma gen_child_bad {A} child (k : option NFA → ST (Generator * list State) A) st :
  bad child st →
  (∀ st1, ∃ st', k None st1 = (Panic, st')) →
  ∃ st',
    ((match child with Some n => gen n | None => lift Panic end) ≫= k) st
    = (Panic, st').
Proof.
  intros Hbad Hk. unfold mbind, ST_bind. destruct child as [n|]; [|by eexists].
  destruct Hbad as [[st' ->]| ->]; [by eexists|]. apply Hk.
Qed.

Lemma ST_bind_panics {S A B} (m : ST S A) (k : A → ST S B) st :
  (∀ x st1, ∃ st', k x st1 = (Panic, st')) → ∃ st', (m ≫= k) st = (Panic, st').
Proof.
  intros Hk. unfold mbind, ST_bind. destruct (m st) as [[x|] st1]; [|by eexists].
  apply Hk.
Qed.

Lemma ST_bind_then_panics {S A B} (m : ST S A) (k : A → ST S B) st :
  (∃ st', m st = (Panic, st')) → ∃ st', (m ≫= k) st = (Panic, st').
Proof. intros [st' Hm]. unfold mbind, ST_bind. rewrite Hm. by eexists. Qed.

Lemma ST_bind_Ok_panics {S A B} (m : ST S A) (k : A → ST S B) st x st1 :
  m st = (Ok x, st1) → (∃ st', k x st1 = (Panic, st')) →
  ∃ st', (m ≫= k) st = (Panic, st').
Proof. intros Hm [st' Hk]. exists st'. by erewrite ST_bind_Ok. Qed.

Lemma gen_malformed node :
  well_formed node = false →
  ∀ st, if recognized (parser.Type' node)
        then ∃ st', gen node st = (Panic, st')
        else gen node st = (Ok None, st).
Proof.
  induction node as [ty value lhs rhs IHl IHr] using Node_tree_ind.
  assert (Hbad : ∀ child, from_option
             (λ n, well_formed n = false →
                   ∀ st, if recognized (parser.Type' n)
                         then ∃ st', gen n st = (Panic, st')
                         else gen n st = (Ok None, st)) True child →
           from_option (λ n, well_formed n = false) True child →
           ∀ st, bad child st).
  { intros [n|] IH Hn st; simpl in *; [|done].
    specialize (IH Hn st). destruct (recognized _); auto. }
  intros Hwf st. destruct ty; simpl in Hwf |- *; try done.
  - (* Union *)
    destruct lhs as [l|]; [|by eexists].
    destruct (well_formed l) eqn:Hwl.
    + destruct st as [g h].
      destruct (gen_generated l g h Hwl) as (a1 & g1 & h1 & Hrun1 & _).
      eapply ST_bind_Ok_panics; [exact Hrun1|].
      apply gen_child_bad.
      * apply Hbad; [done|]. destruct rhs; simpl in *; [|done].
        by destruct (well_formed n).
      * intros st1. apply ST_bind_then_panics, genUnionNFA_nil_r.
    + apply (gen_child_bad (Some l)); [by apply (Hbad (Some l))|].
      intros st1. apply ST_bind_panics. intros x st2.
      apply ST_bind_then_panics, genUnionNFA_nil_l.
  - (* Concat *)
    destruct lhs as [l|]; [|by eexists].
    destruct (well_formed l) eqn:Hwl.
    + destruct st as [g h].
      destruct (gen_generated l g h Hwl) as (a1 & g1 & h1 & Hrun1 & _).
      eapply ST_bind_Ok_panics; [exact Hrun1|].
      apply gen_child_bad.
      * apply Hbad; [done|]. destruct rhs; simpl in *; [|done].
        by destruct (well_formed n).
      * intros st1. apply ST_bind_then_panics, genConcateNFA_nil_r.
    + apply (gen_child_bad (Some l)); [by apply (Hbad (Some l))|].
      intros st1. apply ST_bind_panics. intros x st2.
      apply ST_bind_then_panics, genConcateNFA_nil_l.
  - (* Star *)
    apply gen_child_bad.
    + apply Hbad; [done|]. by destruct lhs.
    + intros st1. apply ST_bind_then_panics, genStarNFA_nil.
Qed.

(** X12: on a node of one of the four kinds gen panics exactly when the tree
    below the node is not a well-formed AST: a Union, Concat or Star node
    lacks a child it reads, or a node that is read is of no known kind. *)
Theorem gen_panics_iff_malformed node :
  recognized (parser.Type' node) = true →
  ∀ st, (∃ st', gen node st = (Panic, st')) ↔ well_formed node = false.
Proof.
  intros Hrec st. split.
  - intros [st' Hpanic]. destruct (well_formed node) eqn:Hwf; [|done].
    destruct st as [g h].
    destruct (gen_generated node g h Hwf) as (a & g' & h' & Hrun & _). congruence.
  - intros Hwf. pose proof (gen_malformed node Hwf st) as H. by rewrite Hrec in H.
Qed.

Lemma gen_panics_iff_malformed_witness :
  ∃ st', gen (mkNode ND_UNION 0 (Some (Symbol "a")) None) (newGenerator, [])
         = (Panic, st').
Proof.
  apply (gen_panics_iff_malformed (mkNode ND_UNION 0 (Some (Symbol "a")) None)
           eq_refl (newGenerator, [])).
  reflexivity.
Defined.

End malformed.

Section languages.

(** Evaluation of the simulator on a store written out: list lookups
    compute, map lookups are rewritten. *)
Ltac run :=
  repeat first
    [ progress simpl
    | progress unfold adaptEpsilonTransition, removeDuplicate
    | rewrite lookup_empty
    | rewrite lookup_singleton_eq
    | rewrite lookup_insert_eq
    | rewrite lookup_singleton_ne by (first [done | congruence | lia])
    | rewrite lookup_insert_ne by (first [done | congruence | lia])
    | rewrite Accept_loop_dead ].

(** The expected answer, decided. *)
Ltac decided :=
  first
    [ done
    | by rewrite bool_decide_true by auto
    | by rewrite bool_decide_false by (first [congruence | intuition congruence]) ].

Lemma length_0_empty (str : string) : String.length str = 0%nat → str = "".
Proof. by destruct str. Qed.

Lemma CreateNFA_symbol c lhs rhs :
  CreateNFA (mkNode ND_SYMBOL c lhs rhs)
  = (Ok (Some symbol_nfa), ({| StateCount := 2 |}, symbol_store c)).
Proof. reflexivity. Qed.

Lemma Accept_loop_symbol c rs :
  c ≠ epsilon →
  Accept_loop (symbol_store c) [Some 0%nat] rs
  ≫= isInAcceptState (symbol_store c) symbol_nfa
  = Ok (bool_decide (rs = [c])).
Proof.
  intros Hc. destruct rs as [|r rs]; [done|].
  destruct (decide (r = c)) as [->|Hr].
  - run. destruct rs as [|r' rs]; run.
    + by rewrite bool_decide_true.
    + by rewrite bool_decide_false.
  - run. rewrite bool_decide_false; [done|]. congruence.
Qed.

(** X16: the automaton compiled from a Symbol node of value c, c other than
    the ε label, accepts a subject exactly when the subject is the single
    character c. *)
Theorem Accept_symbol c lhs rhs str :
  c ≠ epsilon →
  compile_and_accept (mkNode ND_SYMBOL c lhs rhs) str
  = Ok (bool_decide (range_runes str = [c])).
Proof.
  intros Hc. unfold compile_and_accept. rewrite CreateNFA_symbol.
  unfold Accept.
  assert (Hstart : adaptEpsilonTransition (symbol_store c) [StartState symbol_nfa]
                   = Ok [Some 0%nat]) by by run.
  rewrite Hstart. simpl.
  destruct (Nat.eqb_spec (String.length str) 0) as [Hlen|Hlen].
  - apply length_0_empty in Hlen as ->. by run.
  - by apply Accept_loop_symbol.
Qed.


Lemma CreateNFA_star_symbol c lhs rhs v rhs' :
  CreateNFA (mkNode ND_STAR v (Some (mkNode ND_SYMBOL c lhs rhs)) rhs')
  = (Ok (Some star_nfa), ({| StateCount := 3 |}, star_store c)).
Proof. reflexivity. Qed.

Lemma Accept_loop_star c rs : ∀ cur,
  c ≠ epsilon → epsilon ∉ rs →
  cur = [Some 0%nat; Some 2%nat] ∨ cur = [Some 0%nat; Some 1%nat] →
  Accept_loop (star_store c) cur rs ≫= isInAcceptState (star_store c) star_nfa
  = Ok (bool_decide (Forall (λ r, r = c) rs)).
Proof.
  induction rs as [|r rs IH]; intros cur Hc Heps Hcur.
  - destruct Hcur as [-> | ->]; by run.
  - apply not_elem_of_cons in Heps as [Hr Heps].
    destruct (decide (r = c)) as [->|Hne].
    + transitivity (Accept_loop (star_store c) [Some 0%nat; Some 1%nat] rs
                    ≫= isInAcceptState (star_store c) star_nfa).
      { destruct Hcur as [-> | ->]; by run. }
      rewrite IH by auto. f_equal. apply bool_decide_ext.
      rewrite Forall_cons. tauto.
    + transitivity (Ok (A := bool) false).
      { destruct Hcur as [-> | ->]; by run. }
      rewrite bool_decide_false; [done|]. by intros [? _]%Forall_cons.
Qed.

(** X17: the automaton compiled from Star(Symbol c), c other than the ε
    label, accepts a subject without the character U+03B5 exactly when every
    character of the subject is c. *)
Theorem Accept_star_symbol c lhs rhs v rhs' str :
  c ≠ epsilon → epsilon ∉ range_runes str →
  compile_and_accept (mkNode ND_STAR v (Some (mkNode ND_SYMBOL c lhs rhs)) rhs') str
  = Ok (bool_decide (Forall (λ r, r = c) (range_runes str))).
Proof.
  intros Hc Heps. unfold compile_and_accept. rewrite CreateNFA_star_symbol.
  unfold Accept.
  assert (Hstart : adaptEpsilonTransition (star_store c) [StartState star_nfa]
                   = Ok [Some 0%nat; Some 2%nat]) by by run.
  rewrite Hstart. simpl.
  destruct (Nat.eqb_spec (String.length str) 0) as [Hlen|Hlen].
  - apply length_0_empty in Hlen as ->. by run.
  - apply Accept_loop_star; auto.
Qed.

Lemma CreateNFA_concat_symbols c1 c2 v l1 r1 l2 r2 :
  CreateNFA (mkNode ND_CONCAT v (Some (mkNode ND_SYMBOL c1 l1 r1))
                                (Some (mkNode ND_SYMBOL c2 l2 r2)))
  = (Ok (Some concat_nfa), ({| StateCount := 4 |}, concat_store c1 c2)).
Proof. reflexivity. Qed.

Lemma Accept_loop_concat c1 c2 rs :
  c1 ≠ epsilon → c2 ≠ epsilon → epsilon ∉ rs →
  Accept_loop (concat_store c1 c2) [Some 0%nat] rs
  ≫= isInAcceptState (concat_store c1 c2) concat_nfa
  = Ok (bool_decide (rs = [c1; c2])).
Proof.
  intros H1 H2 Heps.
  destruct rs as [|r rs]; [done|].
  apply not_elem_of_cons in Heps as [Hr Heps].
  destruct (decide (r = c1)) as [->|Hne1]; [|run; decided].
  destruct rs as [|r' rs]; [run; decided|].
  apply not_elem_of_cons in Heps as [Hr' Heps].
  destruct (decide (r' = c2)) as [->|Hne2]; [|run; decided].
  destruct rs as [|r'' rs]; run; decided.
Qed.

(** X18: the automaton compiled from Concat(Symbol c1, Symbol c2), c1 and c2
    other than the ε label, accepts a subject without the character U+03B5
    exactly when the subject is c1 followed by c2. *)
Theorem Accept_concat_symbols c1 c2 v l1 r1 l2 r2 str :
  c1 ≠ epsilon → c2 ≠ epsilon → epsilon ∉ range_runes str →
  compile_and_accept
    (mkNode ND_CONCAT v (Some (mkNode ND_SYMBOL c1 l1 r1))
                        (Some (mkNode ND_SYMBOL c2 l2 r2))) str
  = Ok (bool_decide (range_runes str = [c1; c2])).
Proof.
  intros H1 H2 Heps. unfold compile_and_accept. rewrite CreateNFA_concat_symbols.
  unfold Accept.
  assert (Hstart : adaptEpsilonTransition (concat_store c1 c2)
                     [StartState concat_nfa] = Ok [Some 0%nat]) by by run.
  rewrite Hstart. simpl.
  destruct (Nat.eqb_spec (String.length str) 0) as [Hlen|Hlen].
  - apply length_0_empty in Hlen as ->. run. decided.
  - by apply Accept_loop_concat.
Qed.

Lemma CreateNFA_union_symbols c1 c2 v l1 r1 l2 r2 :
  CreateNFA (mkNode ND_UNION v (Some (mkNode ND_SYMBOL c1 l1 r1))
                               (Some (mkNode ND_SYMBOL c2 l2 r2)))
  = (Ok (Some union_nfa), ({| StateCount := 5 |}, union_store c1 c2)).
Proof. reflexivity. Qed.

Lemma Accept_loop_union c1 c2 rs :
  c1 ≠ epsilon → c2 ≠ epsilon → epsilon ∉ rs →
  Accept_loop (union_store c1 c2) [Some 0%nat; Some 2%nat; Some 4%nat] rs
  ≫= isInAcceptState (union_store c1 c2) union_nfa
  = Ok (bool_decide (rs = [c1] ∨ rs = [c2])).
Proof.
  intros H1 H2 Heps.
  destruct rs as [|r rs]; [run; decided|].
  apply not_elem_of_cons in Heps as [Hr Heps].
  destruct (decide (r = c1)) as [Heq1|Hne1], (decide (r = c2)) as [Heq2|Hne2];
    try subst;
    (destruct rs as [|r' rs]; run; decided).
Qed.

(** X19: the automaton compiled from Union(Symbol c1, Symbol c2), c1 and c2
    other than the ε label, accepts a subject without the character U+03B5
    exactly when the subject is the single character c1 or the single
    character c2. *)
Theorem Accept_union_symbols c1 c2 v l1 r1 l2 r2 str :
  c1 ≠ epsilon → c2 ≠ epsilon → epsilon ∉ range_runes str →
  compile_and_accept
    (mkNode ND_UNION v (Some (mkNode ND_SYMBOL c1 l1 r1))
                       (Some (mkNode ND_SYMBOL c2 l2 r2))) str
  = Ok (bool_decide (range_runes str = [c1] ∨ range_runes str = [c2])).
Proof.
  intros H1 H2 Heps. unfold compile_and_accept. rewrite CreateNFA_union_symbols.
  unfold Accept.
  assert (Hstart : adaptEpsilonTransition (union_store c1 c2)
                     [StartState union_nfa]
                   = Ok [Some 0%nat; Some 2%nat; Some 4%nat]) by by run.
  rewrite Hstart. simpl.
  destruct (Nat.eqb_spec (String.length str) 0) as [Hlen|Hlen].
  - apply length_0_empty in Hlen as ->. run. decided.
  - by apply Accept_loop_union.
Qed.

End languages.

(** ** Instances on concrete stores and ASTs *)
Section instances.

(** Every pointer of a concrete list is a state of a concrete store. *)
Ltac all_allocated :=
  repeat (apply Forall_cons_2; [by eexists _, _|]); apply Forall_nil_2.

(** A concrete subject has no character U+03B5. *)
Ltac no_epsilon :=
  let H := fresh in
  intros H; vm_compute in H;
  repeat (apply elem_of_cons in H as [H|H]; [discriminate H|]);
  by apply elem_of_nil in H.

Lemma removeDuplicate_first_occurrences_witness :
  ∃ r, removeDuplicate chain [Some 0%nat; Some 1%nat; Some 0%nat] = Ok r
       ∧ r `sublist_of` [Some 0%nat; Some 1%nat; Some 0%nat]
       ∧ NoDup (id_of chain <$> r)
       ∧ (∀ p, p ∈ [Some 0%nat; Some 1%nat; Some 0%nat] →
               id_of chain p ∈ id_of chain <$> r)
       ∧ removeDuplicate chain r = Ok r.
Proof.
  apply (removeDuplicate_first_occurrences chain
           [Some 0%nat; Some 1%nat; Some 0%nat]).
  all_allocated.
Defined.

Lemma removeDuplicate_returns_iff_witness :
  removeDuplicate chain [Some 0%nat; None] = Panic.
Proof.
  apply (proj2 (removeDuplicate_returns_iff chain [Some 0%nat; None])).
  exists None. split; [right; left|]. by intros (l & s & ? & ?).
Defined.

Lemma contain_by_ID_witness :
  contain chain (Some 0%nat) [Some 1%nat; Some 0%nat]
  = Ok (bool_decide (id_of chain (Some 0%nat)
                     ∈ id_of chain <$> [Some 1%nat; Some 0%nat])).
Proof.
  apply (proj2 (contain_by_ID chain (Some 0%nat) [Some 1%nat; Some 0%nat])).
  - by eexists _, _.
  - all_allocated.
Defined.

Lemma isInAcceptState_by_ID_witness :
  ∃ b, isInAcceptState chain chain_nfa [Some 0%nat; Some 2%nat] = Ok b
       ∧ (b = true ↔ ∃ p q, p ∈ [Some 0%nat; Some 2%nat]
                            ∧ q ∈ AcceptStates chain_nfa
                            ∧ id_of chain p = id_of chain q).
Proof.
  apply (proj2 (isInAcceptState_by_ID chain chain_nfa [Some 0%nat; Some 2%nat]));
    all_allocated.
Defined.

Lemma adaptEpsilonTransition_without_epsilon_witness :
  adaptEpsilonTransition chain [Some 2%nat] = removeDuplicate chain [Some 2%nat].
Proof.
  apply (proj2 (adaptEpsilonTransition_without_epsilon chain [Some 2%nat])).
  reflexivity.
Defined.

Lemma adaptEpsilonTransition_IDs_witness :
  ∃ r, adaptEpsilonTransition chain [Some 0%nat] = Ok r
       ∧ ∀ i, i ∈ id_of chain <$> r ↔
              ∃ p, p ∈ [Some 0%nat]
                   ∧ (i = id_of chain p
                      ∨ ∃ q, q ∈ epsilon_successors chain p ∧ i = id_of chain q).
Proof.
  destruct (adaptEpsilonTransition_IDs chain [Some 0%nat]) as (r & Hr & Hids & _).
  - all_allocated.
  - intros p ->%list_elem_of_singleton. all_allocated.
  - by exists r.
Defined.

Lemma Accept_move_on_witness :
  Accept_move chain epsilon [] [Some 0%nat; Some 1%nat]
  = Ok (flat_map (successors_on chain epsilon) [Some 0%nat; Some 1%nat]).
Proof.
  apply (proj1 (Accept_move_on chain) epsilon [Some 0%nat; Some 1%nat]).
  all_allocated.
Defined.

Lemma Accept_rejects_after_dead_prefix_witness :
  Accept chain chain_nfa "xy" = Ok false.
Proof.
  apply (Accept_rejects_after_dead_prefix chain chain_nfa "xy"
           [Some 1%nat; Some 0%nat] [ch "x"] [ch "y"]).
  - reflexivity.
  - reflexivity.
  - discriminate.
  - reflexivity.
Defined.

Lemma gen_only_appends_witness :
  ∃ a g' new,
    gen (Concat (Symbol "a") (Star (Symbol "b"))) (newGenerator, chain)
    = (Ok (Some a), (g', chain ++ new))
    ∧ length new = 5%nat
    ∧ States a ≡ₚ Some <$> seq 3 (length new).
Proof.
  exact (gen_only_appends (Concat (Symbol "a") (Star (Symbol "b")))
           newGenerator chain eq_refl).
Defined.

Lemma CreateNFA_self_contained_witness :
  ∃ a g' h',
    CreateNFA (Union (Star (Symbol "a")) (Symbol "b")) = (Ok (Some a), (g', h'))
    ∧ NoDup (States a)
    ∧ (∀ p, p ∈ States a ↔ allocated h' p)
    ∧ (∀ p s k ps q, p ∈ States a → deref h' p = Ok s →
         Nexts s !! k = Some ps → q ∈ ps → q ∈ States a)
    ∧ AcceptStates a ≠ [].
Proof.
  exact (CreateNFA_self_contained (Union (Star (Symbol "a")) (Symbol "b")) eq_refl).
Defined.

Lemma Accept_never_panics_witness :
  ∃ a g' h',
    CreateNFA (Union (Star (Symbol "a")) (Symbol "b")) = (Ok (Some a), (g', h'))
    ∧ ∀ str, ∃ b, Accept h' a str = Ok b.
Proof.
  exact (proj2 Accept_never_panics (Union (Star (Symbol "a")) (Symbol "b")) eq_refl).
Defined.

Lemma DumpDOT_never_panics_witness :
  ∃ a g' h',
    CreateNFA (Union (Star (Symbol "a")) (Symbol "b")) = (Ok (Some a), (g', h'))
    ∧ ∀ order out, range_order order →
        ∃ out', DumpDOT h' order a out = (Ok (), out').
Proof.
  exact (proj2 DumpDOT_never_panics (Union (Star (Symbol "a")) (Symbol "b")) eq_refl).
Defined.

Lemma Accept_symbol_witness :
  compile_and_accept (Symbol "a") "a" = Ok true
  ∧ compile_and_accept (Symbol "a") "ab" = Ok false.
Proof.
  split.
  - apply (Accept_symbol (ch "a") None None "a"). discriminate.
  - apply (Accept_symbol (ch "a") None None "ab"). discriminate.
Defined.

Lemma Accept_star_symbol_witness :
  compile_and_accept (Star (Symbol "a")) "aaa" = Ok true
  ∧ compile_and_accept (Star (Symbol "a")) "aba" = Ok false.
Proof.
  split.
  - apply (Accept_star_symbol (ch "a") None None (ch "*") None "aaa");
      [discriminate|no_epsilon].
  - apply (Accept_star_symbol (ch "a") None None (ch "*") None "aba");
      [discriminate|no_epsilon].
Defined.

Lemma Accept_concat_symbols_witness :
  compile_and_accept (Concat (Symbol "a") (Symbol "b")) "ab" = Ok true
  ∧ compile_and_accept (Concat (Symbol "a") (Symbol "b")) "abb" = Ok false.
Proof.
  split.
  - apply (Accept_concat_symbols (ch "a") (ch "b") middle_dot
             None None None None "ab");
      [discriminate|discriminate|no_epsilon].
  - apply (Accept_concat_symbols (ch "a") (ch "b") middle_dot
             None None None None "abb");
      [discriminate|discriminate|no_epsilon].
Defined.

Lemma Accept_union_symbols_witness :
  compile_and_accept (Union (Symbol "a") (Symbol "b")) "b" = Ok true
  ∧ compile_and_accept (Union (Symbol "a") (Symbol "b")) "ab" = Ok false.
Proof.
  split.
  - apply (Accept_union_symbols (ch "a") (ch "b") (ch "|")
             None None None None "b");
      [discriminate|discriminate|no_epsilon].
  - apply (Accept_union_symbols (ch "a") (ch "b") (ch "|")
             None None None None "ab");
      [discriminate|discriminate|no_epsilon].
Defined.

End instances.
